(** * GDrive -> LangChain -> Ollama -> Qdrant pipeline (src/main.py)

    A shallow embedding of the request handler [process_drive_file] and of
    the four stages it sequences: [download_file_from_drive],
    [load_document], [chunk_documents] and [embed_and_store].

    Python values are modelled as follows.
    - [str] is a sequence of characters; a character is an 8-bit code point
      (the range U+0000..U+00FF of Python's [str]), so [list ascii].
    - [int] is [Z]; [bool] is [bool] ([True == 1] is [Z.b2z]).
    - [dict] is stdpp's [gmap] keyed by [str].
    - Raising is the [Raise] constructor of [result]; the handler's
      [except Exception] clause sees every exception of the model.
    - [print] writes its line to a [Console], which may refuse it with
      the exception of its encoder.
    - The collaborators of the program (Drive client, document loaders,
      embedding model, vector index) are the fields of a [World]; what the
      program does to them is recorded, in order, in a trace of [Event]s. *)

From Stdlib Require Import ZArith Lia Ascii String DecimalString.
From stdpp Require Import base option list strings gmap sorting.

Local Open Scope Z_scope.

(** ** Python strings *)

Abbreviation str := (list ascii) (only parsing).

Definition py (lit : string) : str := String.list_ascii_of_string lit.

Coercion py : string >-> list.

Definition len {A} (l : list A) : Z := Z.of_nat (length l).

(** [sep.join(parts)] *)
Fixpoint join (sep : str) (parts : list str) : str :=
  match parts with
  | [] => []
  | [p] => p
  | p :: ps => p ++ sep ++ join sep ps
  end.

(** [t.startswith(p)] *)
Fixpoint startswith (p t : str) : bool :=
  match p, t with
  | [], _ => true
  | _ :: _, [] => false
  | a :: p', b :: t' => bool_decide (a = b) && startswith p' t'
  end.

(** [t.endswith(p)] *)
Definition endswith (p t : str) : bool := startswith (reverse p) (reverse t).

(** [p in t] for a non-empty [p]; also [re.search(re.escape(p), t)]. *)
Fixpoint contains (p t : str) : bool :=
  startswith p t ||
  match t with
  | [] => false
  | _ :: t' => contains p t'
  end.

(** [t.rfind(c)] for a one-character [c]: the highest index, or [-1]. *)
Fixpoint rfind_from (c : ascii) (t : str) (i : Z) (found : Z) : Z :=
  match t with
  | [] => found
  | a :: t' => rfind_from c t' (i + 1) (if bool_decide (a = c) then i else found)
  end.

Definition rfind (c : ascii) (t : str) : Z := rfind_from c t 0 (-1).

(** [str.isspace] on one character of the range U+0000..U+00FF:
    TAB, LF, VT, FF, CR, FS, GS, RS, US, SPACE, NEL, NBSP. *)
Definition isspace (c : ascii) : bool :=
  let n := Z.of_N (N_of_ascii c) in
  ((9 <=? n) && (n <=? 13)) || ((28 <=? n) && (n <=? 32))
  || (n =? 133) || (n =? 160).

Fixpoint lstrip (t : str) : str :=
  match t with
  | [] => []
  | c :: t' => if isspace c then lstrip t' else t
  end.

Definition rstrip (t : str) : str := reverse (lstrip (reverse t)).

(** [t.strip()] *)
Definition strip (t : str) : str := rstrip (lstrip t).

(** [str.lower] on one character of the range U+0000..U+00FF: the letters
    A..Z and the Latin-1 capitals U+00C0..U+00DE (but not the
    multiplication sign U+00D7) move up by 32. *)
Definition lower_char (c : ascii) : ascii :=
  let n := Z.of_N (N_of_ascii c) in
  if ((65 <=? n) && (n <=? 90))
     || ((192 <=? n) && (n <=? 222) && negb (n =? 215))
  then ascii_of_N (Z.to_N (n + 32)) else c.

(** [t.lower()] *)
Definition lower (t : str) : str := map lower_char t.

(** [str(n)] for an [int] *)
Definition str_of_int (n : Z) : str := py (NilZero.string_of_int (Z.to_int n)).

(** ** Exceptions *)

Inductive exn :=
| ValueError (msg : str)
| KeyError (key : str)
| IndexError (msg : str)
| ServiceError (msg : str)
| UnicodeEncodeError (msg : str).

Definition squote : ascii := ascii_of_nat 39.
Definition dquote : ascii := ascii_of_nat 34.
Definition backslash : ascii := ascii_of_nat 92.

Definition hex_digit (n : N) : ascii :=
  nth (N.to_nat n) (py "0123456789abcdef") "0"%char.

(** [str.isprintable] on one character of the range U+0000..U+00FF: all
    but the controls U+0000..U+001F and U+007F..U+009F, the no-break
    space U+00A0 and the soft hyphen U+00AD. *)
Definition isprintable (c : ascii) : bool :=
  let n := Z.of_N (N_of_ascii c) in
  ((32 <=? n) && (n <? 127)) || ((161 <=? n) && negb (n =? 173)).

(** One character of [repr(s)], [quote] being the quote chosen for [s]. *)
Definition repr_char (quote c : ascii) : str :=
  let n := N_of_ascii c in
  if bool_decide (c = quote) || bool_decide (c = backslash) then [backslash; c]
  else if bool_decide (n = 9%N) then [backslash; "t"%char]
  else if bool_decide (n = 10%N) then [backslash; "n"%char]
  else if bool_decide (n = 13%N) then [backslash; "r"%char]
  else if isprintable c then [c]
  else [backslash; "x"%char; hex_digit (n / 16); hex_digit (n mod 16)].

(** [repr(s)] for a [str]: between single quotes, or between double
    quotes when [s] has a single quote and no double quote; the quote,
    the backslash and the characters that are not printable are
    escaped. *)
Definition repr (s : str) : str :=
  let quote :=
    if bool_decide (squote ∈ s) && negb (bool_decide (dquote ∈ s)) then dquote else squote in
  quote :: concat (map (repr_char quote) s) ++ [quote].

(** [str(e)]. For [KeyError] this is the [repr] of the key; for the
    others the message. *)
Definition exn_str (e : exn) : str :=
  match e with
  | ValueError m => m
  | KeyError k => repr k
  | IndexError m => m
  | ServiceError m => m
  | UnicodeEncodeError m => m
  end.

Inductive result (A : Type) :=
| Ok (a : A)
| Raise (e : exn).
Arguments Ok {A} a.
Arguments Raise {A} e.

#[global] Instance result_ret : MRet result := fun _ a => Ok a.

#[global] Instance result_bind : MBind result := fun _ _ k r =>
  match r with
  | Ok a => k a
  | Raise e => Raise e
  end.

(** ** The text splitter

    [chunk_documents] builds a
    [RecursiveCharacterTextSplitter(chunk_size=4000, chunk_overlap=200)]
    and calls [split_documents]. The class is langchain's; the model below
    follows its implementation at the defaults the program leaves in
    place: separators [["\n\n", "\n", " ", ""]], [keep_separator=True],
    [is_separator_regex=False], [length_function=len],
    [strip_whitespace=True], [add_start_index=False]. *)

Module Splitter.

(** [TextSplitter.__init__]: the checks on the two sizes. *)
Definition check_config (chunk_size chunk_overlap : Z) : result unit :=
  if chunk_size <=? 0 then
    Raise (ValueError (py "chunk_size must be > 0, got " ++ str_of_int chunk_size))
  else if chunk_overlap <? 0 then
    Raise (ValueError (py "chunk_overlap must be >= 0, got " ++ str_of_int chunk_overlap))
  else if chunk_overlap >? chunk_size then
    Raise (ValueError (py "Got a larger chunk overlap (" ++ str_of_int chunk_overlap
                       ++ py ") than chunk size (" ++ str_of_int chunk_size
                       ++ py "), should be smaller."))
  else Ok tt.

(** [re.split] on an escaped (literal, non-empty) separator: the pieces
    between the leftmost non-overlapping occurrences. [skip] counts the
    characters of an occurrence still to be consumed; [cur] is the piece
    being read, reversed. *)
Fixpoint re_split_go (sep : str) (skip : nat) (cur : str) (t : str) : list str :=
  match t with
  | [] => [reverse cur]
  | c :: t' =>
      match skip with
      | S k => re_split_go sep k cur t'
      | O =>
          if startswith sep t
          then reverse cur :: re_split_go sep (Nat.pred (length sep)) [] t'
          else re_split_go sep O (c :: cur) t'
      end
  end.

Definition re_split (sep : str) (t : str) : list str := re_split_go sep O [] t.

(** [_split_text_with_regex(text, separator, keep_separator=True)]: with a
    separator, every piece after the first keeps the separator in front
    of it; with the empty separator, the characters of the text. Empty
    strings are dropped. *)
Definition _split_text_with_regex (text separator : str) : list str :=
  let splits :=
    match separator with
    | [] => map (fun c => [c]) text
    | _ :: _ =>
        match re_split separator text with
        | [] => []
        | p0 :: ps => p0 :: map (fun p => separator ++ p) ps
        end
    end in
  filter (fun s => s <> []) splits.

Section WithConfig.

Variables chunk_size chunk_overlap : Z.

(** [_join_docs]: [None] when nothing but white space is left. *)
Definition _join_docs (docs : list str) (separator : str) : option str :=
  let text := strip (join separator docs) in
  match text with
  | [] => None
  | _ => Some text
  end.

(** The guard of the [while] loop of [_merge_splits]. *)
Definition keep_popping (total _len separator_len : Z) (current_doc : list str) : bool :=
  (total >? chunk_overlap)
  || ((total + _len + (if 0 <? Z.of_nat (length current_doc) then separator_len else 0)
       >? chunk_size) && (total >? 0)).

(** The [while] loop of [_merge_splits]: drop pieces from the front of
    [current_doc]. [current_doc[0]] on an empty list raises. *)
Fixpoint pop_front (_len separator_len : Z) (current_doc : list str) (total : Z)
  : result (list str * Z) :=
  match current_doc with
  | [] =>
      if keep_popping total _len separator_len []
      then Raise (IndexError (py "list index out of range"))
      else Ok ([], total)
  | d0 :: rest =>
      if keep_popping total _len separator_len current_doc
      then pop_front _len separator_len rest
             (total - (len d0 + (if 1 <? Z.of_nat (length current_doc)
                                 then separator_len else 0)))
      else Ok (current_doc, total)
  end.

(** The [for d in splits] loop of [_merge_splits], with its three
    variables [docs], [current_doc] and [total]. *)
Fixpoint merge_loop (separator : str) (splits docs current_doc : list str) (total : Z)
  : result (list str) :=
  match splits with
  | [] => Ok (docs ++ option_list (_join_docs current_doc separator))
  | d :: splits' =>
      let separator_len := len separator in
      let _len := len d in
      '(docs1, current_doc1, total1) ←
        (if total + _len + (if 0 <? Z.of_nat (length current_doc) then separator_len else 0)
            >? chunk_size
         then
           match current_doc with
           | [] => Ok (docs, current_doc, total)
           | _ :: _ =>
               let docs' := docs ++ option_list (_join_docs current_doc separator) in
               '(cur', total') ← pop_front _len separator_len current_doc total;
               Ok (docs', cur', total')
           end
         else Ok (docs, current_doc, total));
      let current_doc2 := current_doc1 ++ [d] in
      merge_loop separator splits' docs1 current_doc2
        (total1 + _len + (if 1 <? Z.of_nat (length current_doc2) then separator_len else 0))
  end.

Definition _merge_splits (splits : list str) (separator : str) : result (list str) :=
  merge_loop separator splits [] [] 0.

(** [if _good_splits: final_chunks.extend(self._merge_splits(...))] *)
Definition flush (final_chunks _good_splits : list str) : result (list str) :=
  match _good_splits with
  | [] => Ok final_chunks
  | _ :: _ =>
      merged_text ← _merge_splits _good_splits [];
      Ok (final_chunks ++ merged_text)
  end.

(** The [for s in splits] loop of [_split_text]. [recurse] is [None] when
    [new_separators] is empty and the recursive call otherwise. Since
    [keep_separator] is set, pieces are merged with the empty separator. *)
Fixpoint split_loop (recurse : option (str -> result (list str)))
    (splits final_chunks _good_splits : list str) : result (list str) :=
  match splits with
  | [] => flush final_chunks _good_splits
  | s :: splits' =>
      if len s <? chunk_size
      then split_loop recurse splits' final_chunks (_good_splits ++ [s])
      else
        final_chunks1 ← flush final_chunks _good_splits;
        final_chunks2 ←
          match recurse with
          | None => Ok (final_chunks1 ++ [s])
          | Some f => other_info ← f s; Ok (final_chunks1 ++ other_info)
          end;
        split_loop recurse splits' final_chunks2 []
  end.

(** [RecursiveCharacterTextSplitter._split_text]. The first loop picks the
    first separator that is empty or occurs in the text; when none does,
    the last one is used, with nothing left to recurse on. *)
Fixpoint _split_text (separators : list str) (text : str) : result (list str) :=
  match separators with
  | [] => Raise (IndexError (py "list index out of range"))
  | _s :: rest =>
      let new_separators :=
        match rest with
        | [] => None
        | _ :: _ => Some (_split_text rest)
        end in
      match _s with
      | [] => split_loop None (_split_text_with_regex text []) [] []
      | _ :: _ =>
          if contains _s text
          then split_loop new_separators (_split_text_with_regex text _s) [] []
          else
            match rest with
            | [] => split_loop None (_split_text_with_regex text _s) [] []
            | _ :: _ => _split_text rest text
            end
      end
  end.

Definition separators : list str :=
  [ [ascii_of_nat 10; ascii_of_nat 10]; [ascii_of_nat 10]; py " "; [] ].

Definition split_text (text : str) : result (list str) :=
  _split_text separators text.

End WithConfig.

End Splitter.

(** ** Documents *)

Record Document := mkDocument {
  page_content : str;
  metadata : gmap (list ascii) (list ascii)
}.

(** [create_documents] as called by [split_documents]: every chunk of a
    document carries a copy of the document's metadata. *)
Fixpoint split_documents (chunk_size chunk_overlap : Z) (docs : list Document)
  : result (list Document) :=
  match docs with
  | [] => Ok []
  | doc :: docs' =>
      chunks ← Splitter.split_text chunk_size chunk_overlap (page_content doc);
      more ← split_documents chunk_size chunk_overlap docs';
      Ok (map (fun chunk => mkDocument chunk (metadata doc)) chunks ++ more)
  end.

(** ** Paths ([posixpath]) *)

(** [os.path.join(a, b)] *)
Definition os_path_join (a b : str) : str :=
  if startswith (py "/") b then b
  else if bool_decide (a = []) || endswith (py "/") a then a ++ b
  else a ++ py "/" ++ b.

(** The [while] loop of [genericpath._splitext]: is there a character
    other than a dot in [p[filenameIndex:dotIndex]]? *)
Fixpoint has_non_dot (p : str) : bool :=
  match p with
  | [] => false
  | c :: p' => negb (bool_decide (c = "."%char)) || has_non_dot p'
  end.

(** [os.path.splitext(p)] *)
Definition splitext (p : str) : str * str :=
  let sepIndex := rfind "/"%char p in
  let dotIndex := rfind "."%char p in
  if (dotIndex >? sepIndex)
     && has_non_dot (drop (Z.to_nat (sepIndex + 1)) (take (Z.to_nat dotIndex) p))
  then (take (Z.to_nat dotIndex) p, drop (Z.to_nat dotIndex) p)
  else (p, []).

(** ** Configuration constants *)

Definition OLLAMA_MODEL : str := py "bge-m3:latest".
Definition QDRANT_URL : str := py "http://localhost:6333".
Definition COLLECTION_NAME : str := py "locl_drive_embeddings".

(** ** Collaborators and their trace *)

Inductive Loader :=
| PyPDFLoader (file_path : str)
| TextLoader (file_path encoding : str) (autodetect_encoding : bool)
| CSVLoader (file_path : str).

(** A call the program makes to a collaborator. *)
Inductive Call :=
| BuildDrive
| FilesGet (file_id : str)
| GetMedia (file_id : str)
| OpenWrite (file_path : str)
| NextChunk
| Load (loader : Loader)
| FromDocuments (documents : list Document) (model url collection_name : str).

(** A line the program prints. *)
Inductive LogLine :=
| LogProcessing (file_name mime_type : str)
| LogDownloaded (file_path : str)
| LogLoaded (n : Z) (file_path : str)
| LogCreated (n : Z)
| LogStored (n : Z) (collection_name : str)
| LogError (e : exn).

(** What an observer of the process sees: each call with the exception it
    raised, if any, and each printed line. *)
Inductive Event :=
| ECall (c : Call) (raised : option exn)
| EPrint (line : LogLine).

(** [sys.stdout] as [print] uses it: the answer to writing a log line,
    which is nothing, or the exception of the encoder when the console
    cannot encode the line. Every log line of the program starts with an
    emoji. *)
Class Console := stdout : LogLine -> result unit.

(** A console that encodes every character, as a UTF-8 terminal does.
    Statements that name no console are about this one. *)
#[global] Instance utf8_console : Console := fun _ => Ok tt.

(** A console with the encoding cp1252 (the default of a redirected
    output on Windows), which has none of the emoji: the encoder raises
    at the first of them, U+1F680 after the line feed of the
    [LogProcessing] line, U+274C at the start of the error line and
    U+2705 at the start of the others. *)
Definition cp1252_console : Console := fun line =>
  let refused (escape position : str) :=
    Raise (UnicodeEncodeError
             (py "'charmap' codec can't encode character '" ++ backslash :: escape
              ++ py "' in position " ++ position
              ++ py ": character maps to <undefined>")) in
  match line with
  | LogProcessing _ _ => refused (py "U0001f680") (py "1")
  | LogError _ => refused (py "u274c") (py "0")
  | _ => refused (py "u2705") (py "0")
  end.

(** The answers of the collaborators; an answer depends only on the
    arguments of the call.
    - [drive_build]: loading the service-account credentials and building
      the Drive client.
    - [files_get]: [files().get(fileId, fields).execute()], the metadata
      dictionary of the file.
    - [open_wb]: [io.FileIO(path, "wb")].
    - [next_chunk]: the answers of the successive
      [downloader.next_chunk()] calls, each the [done] flag or an
      exception; once they are used up the download reports [done].
    - [loader_load]: building the loader and calling [loader.load()].
    - [from_documents]: building the embeddings client and calling
      [Qdrant.from_documents(...)], which embeds the documents and
      upserts them. *)
Record World := mkWorld {
  gettempdir : str;
  drive_build : result unit;
  files_get : str -> result (gmap (list ascii) (list ascii));
  open_wb : str -> result unit;
  next_chunk : str -> list (result bool);
  loader_load : Loader -> result (list Document);
  from_documents : list Document -> result unit
}.

(** A computation reads the trace so far and returns its outcome with the
    trace extended by what it did. *)
Definition M (A : Type) : Type := list Event -> result A * list Event.

#[global] Instance M_ret : MRet M := fun _ a tr => (Ok a, tr).

#[global] Instance M_bind : MBind M := fun _ _ k m tr =>
  match m tr with
  | (Ok a, tr') => k a tr'
  | (Raise e, tr') => (Raise e, tr')
  end.

(** A pure computation that may raise. *)
Definition lift {A} (r : result A) : M A := fun tr => (r, tr).

(** A call to a collaborator, answered by [r]. *)
Definition call {A} (c : Call) (r : result A) : M A := fun tr =>
  match r with
  | Ok a => (Ok a, tr ++ [ECall c None])
  | Raise e => (Raise e, tr ++ [ECall c (Some e)])
  end.

(** [print(...)] of a log line: the line is written, or the console
    raises and nothing is written. *)
Definition print {console : Console} (line : LogLine) : M unit := fun tr =>
  match stdout line with
  | Ok _ => (Ok tt, tr ++ [EPrint line])
  | Raise e => (Raise e, tr)
  end.

(** [try: body except Exception as e: handler(e)] *)
Definition try_except {A} (body : M A) (handler : exn -> M A) : M A := fun tr =>
  match body tr with
  | (Ok a, tr') => (Ok a, tr')
  | (Raise e, tr') => handler e tr'
  end.

(** [d[key]] *)
Definition getitem (d : gmap (list ascii) (list ascii)) (key : str) : result str :=
  match d !! key with
  | Some v => Ok v
  | None => Raise (KeyError key)
  end.

(** JSON values of the response body. *)
Inductive json :=
| JStr (s : str)
| JInt (n : Z).

(** ** The program *)

Section Program.

Context {console : Console}.
Variable w : World.

Definition authenticate_drive : M unit := call BuildDrive (drive_build w).

(** [while not done: status, done = downloader.next_chunk()] *)
Fixpoint download_loop (answers : list (result bool)) : M unit :=
  match answers with
  | [] => call NextChunk (Ok tt)
  | r :: answers' =>
      done ← call NextChunk r;
      if done : bool then mret tt else download_loop answers'
  end.

Definition download_file_from_drive (file_id file_name : str) : M str :=
  _ ← authenticate_drive;
  _ ← call (GetMedia file_id) (Ok tt);
  let file_path := os_path_join (gettempdir w) file_name in
  _ ← call (OpenWrite file_path) (open_wb w file_path);
  _ ← download_loop (next_chunk w file_id);
  _ ← print (LogDownloaded file_path);
  mret file_path.

(** The [if]/[elif] chain of [load_document]. *)
Definition select_loader (file_path : str) : result Loader :=
  let ext := lower (splitext file_path).2 in
  if bool_decide (ext = py ".pdf") then Ok (PyPDFLoader file_path)
  else if bool_decide (ext = py ".txt") then Ok (TextLoader file_path (py "utf-8") true)
  else if bool_decide (ext = py ".csv") then Ok (CSVLoader file_path)
  else Raise (ValueError (py "Unsupported file format: " ++ ext)).

Definition load_document (file_path : str) : M (list Document) :=
  loader ← lift (select_loader file_path);
  docs ← call (Load loader) (loader_load w loader);
  _ ← print (LogLoaded (len docs) file_path);
  mret docs.

Definition chunk_documents (docs : list Document) : M (list Document) :=
  _ ← lift (Splitter.check_config 4000 200);
  chunks ← lift (split_documents 4000 200 docs);
  _ ← print (LogCreated (len chunks));
  mret chunks.

Definition embed_and_store (chunks : list Document) : M bool :=
  _ ← call (FromDocuments chunks OLLAMA_MODEL QDRANT_URL COLLECTION_NAME)
        (from_documents w chunks);
  _ ← print (LogStored (len chunks) COLLECTION_NAME);
  mret true.

(** The body of the [try] block up to its [return]: the file name and the
    chunks the response is built from. *)
Definition pipeline (file_id : str) : M (str * list Document) :=
  _ ← authenticate_drive;
  metadata ← call (FilesGet file_id) (files_get w file_id);
  file_name ← lift (getitem metadata (py "name"));
  mime_type ← lift (getitem metadata (py "mimeType"));
  _ ← print (LogProcessing file_name mime_type);
  file_path ← download_file_from_drive file_id file_name;
  docs ← load_document file_path;
  chunks ← chunk_documents docs;
  _ ← embed_and_store chunks;
  mret (file_name, chunks).

Definition success_response (file_name : str) (chunks : Z) : gmap (list ascii) json :=
  {[ py "status" := JStr (py "success");
     py "file" := JStr file_name;
     py "chunks" := JInt chunks ]}.

Definition error_response (e : exn) : gmap (list ascii) json :=
  {[ py "error" := JStr (exn_str e) ]}.

(** The [except Exception as e] clause of the handler. *)
Definition except_clause (e : exn) : M (gmap (list ascii) json) :=
  _ ← print (LogError e);
  mret (error_response e).

Definition process_drive_file (file_id : str) : M (gmap (list ascii) json) :=
  try_except
    ('(file_name, chunks) ← pipeline file_id;
     mret (success_response file_name (len chunks)))
    except_clause.

End Program.

(** ** Vocabulary of the properties *)

(** The stages of a request, in the order the handler runs them. *)
Inductive Stage := Fetch | Parse | Chunk | Embed.

Definition stage_rank (s : Stage) : nat :=
  match s with
  | Fetch => 0
  | Parse => 1
  | Chunk => 2
  | Embed => 3
  end.

(** The stage an event belongs to; the error line belongs to none. *)
Definition stage_of (ev : Event) : option Stage :=
  match ev with
  | ECall BuildDrive _ | ECall (FilesGet _) _ | ECall (GetMedia _) _
  | ECall (OpenWrite _) _ | ECall NextChunk _ => Some Fetch
  | ECall (Load _) _ => Some Parse
  | ECall (FromDocuments _ _ _ _) _ => Some Embed
  | EPrint (LogProcessing _ _) | EPrint (LogDownloaded _) => Some Fetch
  | EPrint (LogLoaded _ _) => Some Parse
  | EPrint (LogCreated _) => Some Chunk
  | EPrint (LogStored _ _) => Some Embed
  | EPrint (LogError _) => None
  end.

(** A stage is complete once the line it prints last is in the trace. *)
Definition completes (s : Stage) (ev : Event) : bool :=
  match s, ev with
  | Fetch, EPrint (LogDownloaded _) => true
  | Parse, EPrint (LogLoaded _ _) => true
  | Chunk, EPrint (LogCreated _) => true
  | Embed, EPrint (LogStored _ _) => true
  | _, _ => false
  end.

Definition completed (s : Stage) (tr : list Event) : bool := existsb (completes s) tr.

(** A call that raised. *)
Definition raised (ev : Event) : bool :=
  match ev with
  | ECall _ (Some _) => true
  | _ => false
  end.

(** The handler up to the end of the download: the file name and the
    local path. *)
Definition fetch {console : Console} (w : World) (file_id : str) : M (str * str) :=
  _ ← authenticate_drive w;
  metadata ← call (FilesGet file_id) (files_get w file_id);
  file_name ← lift (getitem metadata (py "name"));
  mime_type ← lift (getitem metadata (py "mimeType"));
  _ ← print (LogProcessing file_name mime_type);
  file_path ← download_file_from_drive w file_id file_name;
  mret (file_name, file_path).

(** Modelled on the spec's description of the chunker (section 4.3):
    consecutive windows of up to [max_size] characters, each after the
    first beginning [max_size - overlap] characters after the start of
    the previous one; the last may be shorter. [fuel] bounds the number
    of windows. *)
Fixpoint windows_fuel (fuel : nat) (max_size overlap : Z) (t : str) : list str :=
  match fuel with
  | O => []
  | S fuel' =>
      match t with
      | [] => []
      | _ :: _ =>
          if len t <=? max_size then [t]
          else take (Z.to_nat max_size) t
               :: windows_fuel fuel' max_size overlap (drop (Z.to_nat (max_size - overlap)) t)
      end
  end.

Definition windows (max_size overlap : Z) (t : str) : list str :=
  windows_fuel (length t) max_size overlap t.

(** Two consecutive chunks overlap by exactly [k] characters: the last
    [k] characters of the first are the first [k] of the second. *)
Definition overlap_by (k : Z) (c1 c2 : str) : Prop :=
  k <= len c1 /\ k <= len c2 /\
  drop (Z.to_nat (len c1 - k)) c1 = take (Z.to_nat k) c2.

(** The text the chunks were cut from, were they windows overlapping by
    [k]: the first chunk, then every other chunk without its first [k]
    characters. *)
Definition stitch (k : Z) (chunks : list str) : str :=
  match chunks with
  | [] => []
  | c :: cs => c ++ concat (map (drop (Z.to_nat k)) cs)
  end.

Definition no_space (t : str) : Prop := Forall (fun c => isspace c = false) t.

Definition all_space (t : str) : Prop := Forall (fun c => isspace c = true) t.

(** [covers k chunks t]: the text [t] is, in order, the new regions of
    the chunks, with nothing but white space before, between and after
    them; every chunk is its new region preceded by at most [k]
    characters carried over from the text before it. *)
Inductive covers (k : Z) : list str -> str -> Prop :=
| covers_nil gap :
    all_space gap -> covers k [] gap
| covers_cons gap carried new chunk chunks rest :
    all_space gap -> chunk = carried ++ new -> len carried <= k ->
    covers k chunks rest ->
    covers k (chunk :: chunks) (gap ++ new ++ rest).

(** What [split_loop] needs of its recursive call for its chunks to
    cover the pieces. *)
Definition recurse_covers (k : Z) (recurse : option (str -> result (list str))) : Prop :=
  match recurse with
  | None => True
  | Some f => forall s, exists out, f s = Ok out /\ covers k out s
  end.

(** The class of the loader a path is routed to. *)
Inductive LoaderClass := PdfClass | TextClass | CsvClass.

Definition loader_class (l : Loader) : LoaderClass :=
  match l with
  | PyPDFLoader _ => PdfClass
  | TextLoader _ _ _ => TextClass
  | CSVLoader _ => CsvClass
  end.

Definition route (file_path : str) : result LoaderClass :=
  match select_loader file_path with
  | Ok l => Ok (loader_class l)
  | Raise e => Raise e
  end.

(** The components of a path between slashes. [cur] is the component
    being read, reversed. *)
Fixpoint split_slash (cur : str) (p : str) : list str :=
  match p with
  | [] => [reverse cur]
  | c :: p' =>
      if bool_decide (c = "/"%char) then reverse cur :: split_slash [] p'
      else split_slash (c :: cur) p'
  end.

(** Resolve empty, [.] and [..] components of an absolute path, as
    [os.path.normpath] does. [stack] is the resolved part, reversed. *)
Fixpoint resolve (stack : list str) (components : list str) : list str :=
  match components with
  | [] => reverse stack
  | c :: cs =>
      if bool_decide (c = []) || bool_decide (c = py ".") then resolve stack cs
      else if bool_decide (c = py "..") then resolve (tail stack) cs
      else resolve (c :: stack) cs
  end.

Definition normal_components (p : str) : list str := resolve [] (split_slash [] p).

(** The absolute path [p] lies in the directory [dir] or below it. *)
Definition inside (dir p : str) : Prop :=
  normal_components dir `prefix_of` normal_components p.

#[global] Instance inside_dec dir p : Decision (inside dir p).
Proof. unfold inside. apply _. Defined.

#[global] Instance overlap_by_dec k c1 c2 : Decision (overlap_by k c1 c2).
Proof. unfold overlap_by. apply _. Defined.

#[global] Instance no_space_dec t : Decision (no_space t).
Proof. unfold no_space. apply _. Defined.

(** Every chunk of the list has at most [chunk_size] characters. *)
Definition all_fit (chunk_size : Z) (l : list str) : Prop :=
  Forall (fun c => len c <= chunk_size) l.

(** The characters of a text, each as a string of its own. *)
Definition chars (t : str) : list str := map (fun c => [c]) t.

(** What [split_loop] needs of the way it handles a long piece: either
    there is a recursive call, whose chunks fit, or no piece is long. *)
Definition recurse_ok (chunk_size : Z) (recurse : option (str -> result (list str)))
    (splits : list str) : Prop :=
  match recurse with
  | None => Forall (fun s => len s < chunk_size) splits
  | Some f => forall s, exists out, f s = Ok out /\ all_fit chunk_size out
  end.

(** ** Sample inputs *)

Definition sample_metadata (name : str) : gmap (list ascii) (list ascii) :=
  {[ py "name" := name; py "mimeType" := py "application/octet-stream" ]}.

(** A world in which every collaborator answers: the file is called
    [name], it downloads in two pieces, and the loader reads [docs]. *)
Definition sample_world (name : str) (docs : list Document) : World := {|
  gettempdir := py "/tmp";
  drive_build := Ok tt;
  files_get := fun _ => Ok (sample_metadata name);
  open_wb := fun _ => Ok tt;
  next_chunk := fun _ => [Ok false; Ok true];
  loader_load := fun _ => Ok docs;
  from_documents := fun _ => Ok tt
|}.

(** The same world, except that the file identifier does not resolve. *)
Definition missing_file_world : World := {|
  gettempdir := py "/tmp";
  drive_build := Ok tt;
  files_get := fun _ => Raise (ServiceError (py "File not found: nope."));
  open_wb := fun _ => Ok tt;
  next_chunk := fun _ => [Ok true];
  loader_load := fun _ => Ok [];
  from_documents := fun _ => Ok tt
|}.

Definition text_doc (path : str) (text : str) : Document :=
  mkDocument text {[ py "source" := path ]}.

(** Three runs of 3000 letters separated by single spaces. *)
Definition three_runs : str :=
  repeat "a"%char 3000 ++ py " " ++ repeat "b"%char 3000 ++ py " " ++ repeat "c"%char 3000.

(** 9000 characters: runs of 3000, 3000 and 2998 letters and two spaces. *)
Definition nine_thousand : str :=
  repeat "a"%char 3000 ++ py " " ++ repeat "b"%char 3000 ++ py " " ++ repeat "c"%char 2998.

(** 9000 letters. *)
Definition nine_thousand_letters : str := repeat "x"%char (9 * 1000).

(** ** Reasoning about traces *)

Definition is_ok {A} (r : result A) : bool :=
  match r with
  | Ok _ => true
  | Raise _ => false
  end.

(** [m] extends the trace by some events, and its outcome and these
    events satisfy [P]. *)
Definition emits {A} (m : M A) (P : result A -> list Event -> Prop) : Prop :=
  forall tr, exists r new, m tr = (r, tr ++ new) /\ P r new.

(** No call in the list raised. *)
Definition quiet (l : list Event) : Prop := Forall (fun ev => raised ev = false) l.

(** At most the last event is a call that raised, and then the
    computation raises the same exception. *)
Definition halts_at_raise {A} (r : result A) (new : list Event) : Prop :=
  match r with
  | Ok _ => quiet new
  | Raise e => quiet new \/ exists pre c, new = pre ++ [ECall c (Some e)] /\ quiet pre
  end.

Definition halting {A} (m : M A) : Prop := emits m halts_at_raise.

(** Every event belongs to stage [s] and none completes it. *)
Definition inner (s : Stage) (l : list Event) : Prop :=
  Forall (fun ev => stage_of ev = Some s /\ completes s ev = false) l.

Definition within {A} (s : Stage) (m : M A) : Prop := emits m (fun _ new => inner s new).

(** Every event belongs to stage [s], and the stage is completed exactly
    when the computation returns. *)
Definition in_stage {A} (s : Stage) (r : result A) (new : list Event) : Prop :=
  Forall (fun ev => stage_of ev = Some s) new /\ completed s new = is_ok r.

Definition runs_stage {A} (s : Stage) (m : M A) : Prop := emits m (in_stage s).

(** The events of a run, stage by stage: a stage has events only if the
    stage before it was completed, and the last stage is completed
    exactly when the run returns. *)
Definition staged {A} (r : result A) (new : list Event) : Prop :=
  exists nf np nc ne,
    new = nf ++ np ++ nc ++ ne
    /\ Forall (fun ev => stage_of ev = Some Fetch) nf
    /\ Forall (fun ev => stage_of ev = Some Parse) np
    /\ Forall (fun ev => stage_of ev = Some Chunk) nc
    /\ Forall (fun ev => stage_of ev = Some Embed) ne
    /\ (completed Fetch nf = false -> np = [])
    /\ (completed Parse np = false -> nc = [])
    /\ (completed Chunk nc = false -> ne = [])
    /\ completed Embed ne = is_ok r.

(** ** Vocabulary of the further properties *)

(** [c] occurs in [t] as a run of consecutive characters. *)
Definition substring (c t : str) : Prop := exists a b, t = a ++ c ++ b.

(** Not empty, and no white space at either end. *)
Definition trimmed (c : str) : Prop :=
  (exists a, head c = Some a /\ isspace a = false)
  /\ (exists z, last c = Some z /\ isspace z = false).

(** A chunk cut from the text [t]. *)
Definition cut_from (t c : str) : Prop := trimmed c /\ substring c t.

(** What [split_loop] needs of the way it handles a long piece for its
    chunks to be cut from the pieces. *)
Definition recurse_cuts (chunk_size : Z) (recurse : option (str -> result (list str)))
    (splits : list str) : Prop :=
  match recurse with
  | None => Forall (fun s => len s < chunk_size) splits
  | Some f => forall s, exists out, f s = Ok out /\ Forall (cut_from s) out
  end.

(** The download is done at call [n] (counted from 0): the answers
    before it are [done = False], and the answer [n] is [done = True],
    or the answers are used up. *)
Definition done_after (answers : list (result bool)) (n : nat) : Prop :=
  take n answers = repeat (Ok false) n
  /\ (answers !! n = Some (Ok true) \/ answers !! n = None).

(** The number of calls in a trace that satisfy [p]. *)
Fixpoint calls (p : Call -> bool) (tr : list Event) : nat :=
  match tr with
  | [] => 0
  | ECall c _ :: tr' => (if p c then 1 else 0) + calls p tr'
  | EPrint _ :: tr' => calls p tr'
  end.

(** [m] makes at most [n] calls that satisfy [p]. *)
Definition at_most {A} (p : Call -> bool) (n : nat) (m : M A) : Prop :=
  emits m (fun _ new => (calls p new <= n)%nat).

Definition is_build (c : Call) : bool :=
  match c with BuildDrive => true | _ => false end.
Definition is_files_get (c : Call) : bool :=
  match c with FilesGet _ => true | _ => false end.
Definition is_get_media (c : Call) : bool :=
  match c with GetMedia _ => true | _ => false end.
Definition is_open_write (c : Call) : bool :=
  match c with OpenWrite _ => true | _ => false end.
Definition is_load (c : Call) : bool :=
  match c with Load _ => true | _ => false end.
Definition is_from_documents (c : Call) : bool :=
  match c with FromDocuments _ _ _ _ => true | _ => false end.

(** The stages of the events of a trace, in order. *)
Definition stages (tr : list Event) : list nat :=
  omap (fun ev => stage_rank <$> stage_of ev) tr.

(** A world in which every collaborator answers and the metadata of
    every file is [md]. *)
Definition metadata_world (md : gmap (list ascii) (list ascii)) : World := {|
  gettempdir := py "/tmp";
  drive_build := Ok tt;
  files_get := fun _ => Ok md;
  open_wb := fun _ => Ok tt;
  next_chunk := fun _ => [Ok true];
  loader_load := fun _ => Ok [];
  from_documents := fun _ => Ok tt
|}.

(** * Properties *)

(** Boolean comparisons on [Z] in hypotheses, as propositions. *)
Ltac zbool :=
  repeat match goal with
  | H : (_ >? _) = true |- _ => apply Z.gtb_lt in H
  | H : (_ >? _) = false |- _ => rewrite Z.gtb_ltb in H; apply Z.ltb_ge in H
  | H : (_ <? _) = true |- _ => apply Z.ltb_lt in H
  | H : (_ <? _) = false |- _ => apply Z.ltb_ge in H
  | H : (_ <=? _) = true |- _ => apply Z.leb_le in H
  | H : (_ <=? _) = false |- _ => apply Z.leb_gt in H
  | H : (_ =? _) = true |- _ => apply Z.eqb_eq in H
  | H : (_ =? _) = false |- _ => apply Z.eqb_neq in H
  end.

(** ** Strings *)

Lemma len_nonneg {A} (l : list A) : 0 <= len l.
Proof. unfold len. lia. Qed.

Lemma len_app {A} (l k : list A) : len (l ++ k) = len l + len k.
Proof. unfold len. rewrite length_app. lia. Qed.

Lemma join_nil (parts : list str) : join [] parts = concat parts.
Proof.
  induction parts as [|p [|q ps] IH]; simpl in *.
  - reflexivity.
  - now rewrite app_nil_r.
  - now rewrite IH.
Qed.

Lemma lstrip_length t : (length (lstrip t) <= length t)%nat.
Proof.
  induction t as [|c t IH]; simpl; [lia|].
  destruct (isspace c); simpl; lia.
Qed.

Lemma strip_length t : (length (strip t) <= length t)%nat.
Proof.
  unfold strip, rstrip. rewrite length_reverse.
  etrans; [apply lstrip_length|]. rewrite length_reverse. apply lstrip_length.
Qed.

Lemma lstrip_id t : Forall (fun c => isspace c = false) t -> lstrip t = t.
Proof. destruct 1 as [|c t Hc _]; simpl; [reflexivity|]. now rewrite Hc. Qed.

Lemma strip_id t : Forall (fun c => isspace c = false) t -> strip t = t.
Proof.
  intros H. unfold strip, rstrip. rewrite (lstrip_id t H).
  rewrite lstrip_id; [apply reverse_involutive|].
  now apply Forall_reverse.
Qed.

(** ** The merge loop keeps every chunk within the chunk size *)

Section MergeBound.

Variables chunk_size chunk_overlap : Z.
Hypothesis overlap_nonneg : 0 <= chunk_overlap.
Hypothesis size_nonneg : 0 <= chunk_size.

Local Abbreviation fits := (all_fit chunk_size).

Lemma fits_app l k : fits l -> fits k -> fits (l ++ k).
Proof. apply Forall_app_2. Qed.

Lemma fits_join_docs cur :
  len (concat cur) <= chunk_size ->
  fits (option_list (Splitter._join_docs cur [])).
Proof.
  intros H. unfold Splitter._join_docs. rewrite join_nil.
  pose proof (strip_length (concat cur)) as Hs.
  destruct (strip (concat cur)) as [|c s] eqn:E; simpl.
  - constructor.
  - constructor; [|constructor]. unfold len in *. lia.
Qed.

(** With the empty separator, [total] is the length of what
    [current_doc] joins to; the guard is then false on an empty list, and
    the loop stops with room for the next piece. *)
Lemma pop_front_spec _len cur :
  0 <= _len ->
  exists cur',
    Splitter.pop_front chunk_size chunk_overlap _len 0 cur (len (concat cur))
    = Ok (cur', len (concat cur'))
    /\ cur' `suffix_of` cur
    /\ len (concat cur') <= chunk_overlap
    /\ (len (concat cur') + _len <= chunk_size \/ len (concat cur') = 0).
Proof.
  intros Hlen. induction cur as [|d0 rest IH].
  - exists []. simpl. unfold Splitter.keep_popping. simpl.
    replace (len (@nil ascii)) with 0 by reflexivity.
    destruct (0 >? chunk_overlap) eqn:E; [zbool; lia|].
    simpl. rewrite andb_false_r. split; [reflexivity|]. split; [reflexivity|].
    split; [lia|now right].
  - destruct IH as (cur' & Hrun & Hsuf & Hle & Hroom).
    cbn [Splitter.pop_front].
    destruct (Splitter.keep_popping _ _ _ _ _ _) eqn:G.
    + exists cur'. cbn [concat]. rewrite len_app.
      replace (if 1 <? Z.of_nat (length (d0 :: rest)) then 0 else 0) with 0
        by now destruct (1 <? _).
      replace (len d0 + len (concat rest) - (len d0 + 0)) with (len (concat rest)) by lia.
      split; [exact Hrun|]. split; [now apply suffix_cons_r|]. split; [exact Hle|exact Hroom].
    + exists (d0 :: rest). split; [reflexivity|]. split; [reflexivity|].
      unfold Splitter.keep_popping in G.
      apply orb_false_elim in G as [G1 G2]. split; [zbool; lia|].
      apply andb_false_elim in G2 as [G2|G2]; [left|right].
      * replace (if 0 <? _ then 0 else 0) with 0 in G2 by now destruct (0 <? _).
        zbool. lia.
      * zbool. pose proof (len_nonneg (concat (d0 :: rest))). lia.
Qed.

Lemma merge_loop_fits splits : forall docs cur,
  fits splits -> fits docs -> len (concat cur) <= chunk_size ->
  exists out,
    Splitter.merge_loop chunk_size chunk_overlap [] splits docs cur (len (concat cur))
    = Ok out /\ fits out.
Proof.
  induction splits as [|d splits IH]; intros docs cur Hsp Hdocs Hcur.
  - eexists. split; [reflexivity|]. apply fits_app; [assumption|].
    now apply fits_join_docs.
  - apply Forall_cons in Hsp as [Hd Hsp].
    cbn [Splitter.merge_loop].
    replace (len (@nil ascii)) with 0 by reflexivity.
    assert (Hstep : forall docs1 cur1,
      fits docs1 -> len (concat cur1) + len d <= chunk_size ->
      exists out,
        Splitter.merge_loop chunk_size chunk_overlap [] splits docs1 (cur1 ++ [d])
          (len (concat cur1) + len d + (if 1 <? Z.of_nat (length (cur1 ++ [d])) then 0 else 0))
        = Ok out /\ fits out).
    { intros docs1 cur1 H1 H2.
      replace (len (concat cur1) + len d + _) with (len (concat (cur1 ++ [d]))).
      - apply IH; try assumption.
        rewrite concat_app, len_app. simpl. rewrite app_nil_r. lia.
      - rewrite concat_app, len_app. simpl. rewrite app_nil_r.
        destruct (1 <? _); lia. }
    replace (if 0 <? Z.of_nat (length cur) then 0 else 0) with 0
      by now destruct (0 <? _).
    destruct (len (concat cur) + len d + 0 >? chunk_size) eqn:E.
    + destruct cur as [|c0 cur0].
      * cbn [mbind result_bind]. apply (Hstep docs []); [assumption|].
        replace (len (concat [])) with 0 in * by reflexivity. zbool. lia.
      * destruct (pop_front_spec (len d) (c0 :: cur0) (len_nonneg d))
          as (cur' & Hrun & _ & _ & Hroom).
        rewrite Hrun. cbn [mbind result_bind].
        apply Hstep.
        -- apply fits_app; [assumption|]. now apply fits_join_docs.
        -- destruct Hroom as [Hroom|Hroom]; lia.
    + cbn [mbind result_bind]. apply Hstep; [assumption|zbool; lia].
Qed.

Lemma merge_splits_fits splits :
  fits splits ->
  exists out, Splitter._merge_splits chunk_size chunk_overlap splits [] = Ok out /\ fits out.
Proof.
  intros H. unfold Splitter._merge_splits.
  apply (merge_loop_fits splits [] []); [assumption|constructor|].
  exact size_nonneg.
Qed.

Lemma flush_fits fc good :
  fits fc -> fits good ->
  exists out, Splitter.flush chunk_size chunk_overlap fc good = Ok out /\ fits out.
Proof.
  intros Hfc Hgood. destruct good as [|g good]; simpl.
  - eauto.
  - destruct (merge_splits_fits (g :: good) Hgood) as (m & -> & Hm).
    cbn [mbind result_bind]. eexists. split; [reflexivity|]. now apply fits_app.
Qed.

Lemma split_loop_fits recurse splits : forall fc good,
  recurse_ok chunk_size recurse splits -> fits fc -> fits good ->
  exists out,
    Splitter.split_loop chunk_size chunk_overlap recurse splits fc good = Ok out /\ fits out.
Proof.
  induction splits as [|s splits IH]; intros fc good Hrec Hfc Hgood.
  - now apply flush_fits.
  - cbn [Splitter.split_loop].
    assert (Hrec' : recurse_ok chunk_size recurse splits).
    { destruct recurse; [exact Hrec|]. now apply Forall_cons in Hrec as [_ ?]. }
    destruct (len s <? chunk_size) eqn:E.
    + apply IH; try assumption. apply fits_app; [assumption|].
      constructor; [|constructor]. zbool. lia.
    + destruct (flush_fits fc good Hfc Hgood) as (fc1 & -> & Hfc1).
      cbn [mbind result_bind].
      destruct recurse as [f|].
      * destruct (Hrec s) as (other & -> & Hother). cbn [mbind result_bind].
        apply IH; [assumption| |constructor]. now apply fits_app.
      * apply Forall_cons in Hrec as [Hs _]. zbool. lia.
Qed.

Lemma chars_small text :
  1 < chunk_size ->
  Forall (fun s => len s < chunk_size) (Splitter._split_text_with_regex text []).
Proof.
  intros H. unfold Splitter._split_text_with_regex.
  apply Forall_forall. intros s Hs.
  apply list_elem_of_filter in Hs as [_ Hs].
  apply list_elem_of_fmap in Hs as (c & -> & _). exact H.
Qed.

(** Every chunk fits when the list of separators ends with the empty
    one, so that a long piece can always be cut into characters. *)
Lemma _split_text_fits separators :
  last separators = Some [] -> 1 < chunk_size ->
  forall text, exists out,
    Splitter._split_text chunk_size chunk_overlap separators text = Ok out /\ fits out.
Proof.
  intros Hlast Hsize.
  induction separators as [|_s rest IH]; [discriminate|].
  intros text. cbn [Splitter._split_text].
  assert (Hchars : exists out,
    Splitter.split_loop chunk_size chunk_overlap None
      (Splitter._split_text_with_regex text []) [] [] = Ok out /\ fits out).
  { apply split_loop_fits; [|constructor|constructor]. now apply chars_small. }
  destruct rest as [|s' rest'].
  - simpl in Hlast. injection Hlast as ->. exact Hchars.
  - specialize (IH Hlast).
    destruct _s as [|c _s]; [exact Hchars|].
    destruct (contains (c :: _s) text); [|apply IH].
    apply split_loop_fits; [exact IH|constructor|constructor].
Qed.

End MergeBound.

(** ** Windows *)

Section Windows.

Variables max_size overlap : Z.
Hypothesis overlap_nonneg : 0 <= overlap.
Hypothesis overlap_lt : overlap < max_size.

Lemma len_take {A} (n : nat) (l : list A) : len (take n l) = Z.min (Z.of_nat n) (len l).
Proof. unfold len. rewrite length_take. lia. Qed.

Lemma len_drop {A} (n : nat) (l : list A) : len (drop n l) = Z.max 0 (len l - Z.of_nat n).
Proof. unfold len. rewrite length_drop. lia. Qed.

Lemma windows_fuel_enough fuel : forall fuel' t,
  (length t <= fuel)%nat -> (length t <= fuel')%nat ->
  windows_fuel fuel max_size overlap t = windows_fuel fuel' max_size overlap t.
Proof.
  induction fuel as [|fuel IH]; intros fuel' t H H'.
  - destruct t; [|simpl in H; lia]. now destruct fuel'.
  - destruct fuel' as [|fuel'].
    + destruct t; [reflexivity|simpl in H'; lia].
    + simpl. destruct t as [|a t]; [reflexivity|].
      destruct (len (a :: t) <=? max_size); [reflexivity|].
      f_equal. apply IH; rewrite length_drop; simpl in *; lia.
Qed.

Lemma windows_nil : windows max_size overlap [] = [].
Proof. reflexivity. Qed.

Lemma windows_short t :
  t <> [] -> len t <= max_size -> windows max_size overlap t = [t].
Proof.
  intros Hne Hle. unfold windows. destruct t as [|a t]; [done|].
  cbn [length windows_fuel]. apply Z.leb_le in Hle. now rewrite Hle.
Qed.

Lemma windows_long t :
  max_size < len t ->
  windows max_size overlap t
  = take (Z.to_nat max_size) t
    :: windows max_size overlap (drop (Z.to_nat (max_size - overlap)) t).
Proof.
  intros Hlt. unfold windows. destruct t as [|a t].
  { unfold len in Hlt. simpl in Hlt. lia. }
  cbn [length windows_fuel]. apply Z.leb_gt in Hlt. rewrite Hlt.
  f_equal. apply windows_fuel_enough; [|lia].
  rewrite length_drop. simpl. lia.
Qed.

Lemma windows_ind (P : str -> list str -> Prop) :
  P [] [] ->
  (forall t, t <> [] -> len t <= max_size -> P t [t]) ->
  (forall t, max_size < len t ->
     let t' := drop (Z.to_nat (max_size - overlap)) t in
     P t' (windows max_size overlap t') ->
     P t (take (Z.to_nat max_size) t :: windows max_size overlap t')) ->
  forall t, P t (windows max_size overlap t).
Proof.
  intros Hnil Hshort Hlong t.
  remember (length t) as n eqn:Hn. revert t Hn.
  induction n as [n IH] using lt_wf_ind. intros t ->.
  destruct (decide (t = [])) as [->|Hne]; [exact Hnil|].
  destruct (Z_le_gt_dec (len t) max_size) as [Hle|Hgt].
  - rewrite windows_short by assumption. now apply Hshort.
  - rewrite windows_long by lia. apply Hlong; [lia|].
    eapply IH; [|reflexivity]. rewrite length_drop. unfold len in Hgt. lia.
Qed.

Lemma windows_fit t : Forall (fun c => len c <= max_size) (windows max_size overlap t).
Proof.
  apply (windows_ind (fun _ ws => Forall (fun c => len c <= max_size) ws)).
  - constructor.
  - intros; now repeat constructor.
  - intros t0 Hlt t' IH. constructor; [|exact IH]. rewrite len_take. lia.
Qed.

(** The first window of a text longer than the overlap is longer than
    the overlap and starts the text. *)
Lemma windows_head t :
  overlap < len t ->
  exists c cs, windows max_size overlap t = c :: cs
    /\ overlap < len c /\ take (Z.to_nat overlap) c = take (Z.to_nat overlap) t.
Proof.
  intros Hlt. destruct (Z_le_gt_dec (len t) max_size) as [Hle|Hgt].
  - exists t, []. rewrite windows_short; [auto|intros ->; unfold len in Hlt; simpl in Hlt; lia|lia].
  - eexists _, _. rewrite windows_long by lia. split; [reflexivity|].
    rewrite len_take. split; [lia|].
    rewrite take_take. f_equal. lia.
Qed.

Lemma windows_overlap t : forall i c1 c2,
  windows max_size overlap t !! i = Some c1 ->
  windows max_size overlap t !! S i = Some c2 ->
  overlap_by overlap c1 c2.
Proof.
  apply (windows_ind (fun _ ws => forall i c1 c2,
    ws !! i = Some c1 -> ws !! S i = Some c2 -> overlap_by overlap c1 c2)).
  - intros i c1 c2 H. discriminate.
  - intros t0 _ _ i c1 c2 _ H. destruct i; discriminate.
  - intros t0 Hlt t' IH [|i] c1 c2 H1 H2; [|exact (IH i c1 c2 H1 H2)].
    simpl in H1, H2. injection H1 as <-.
    assert (Ht' : overlap < len t') by (unfold t'; rewrite len_drop; lia).
    destruct (windows_head t' Ht') as (c & cs & E & Hc & Hpre).
    rewrite E in H2. simpl in H2. injection H2 as <-.
    unfold overlap_by. rewrite len_take. split; [lia|]. split; [lia|].
    rewrite Hpre. unfold t'.
    rewrite take_drop_commute.
    replace (Z.to_nat (max_size - overlap) + Z.to_nat overlap)%nat
      with (Z.to_nat max_size) by lia.
    f_equal. lia.
Qed.

Lemma windows_stitch t : stitch overlap (windows max_size overlap t) = t.
Proof.
  apply (windows_ind (fun t ws => stitch overlap ws = t)).
  - reflexivity.
  - intros t0 _ _. simpl. apply app_nil_r.
  - intros t0 Hlt t' IH.
    assert (Ht' : overlap < len t') by (unfold t'; rewrite len_drop; lia).
    destruct (windows_head t' Ht') as (c & cs & E & Hc & Hpre).
    rewrite E in IH |- *. cbn [stitch map concat] in IH |- *.
    assert (Hd : drop (Z.to_nat overlap) c ++ concat (map (drop (Z.to_nat overlap)) cs)
                 = drop (Z.to_nat overlap) t').
    { rewrite <- IH. rewrite drop_app_le by (unfold len in Hc; lia). reflexivity. }
    rewrite Hd. unfold t'. rewrite drop_drop.
    replace (Z.to_nat (max_size - overlap) + Z.to_nat overlap)%nat with (Z.to_nat max_size) by lia.
    apply take_drop.
Qed.

End Windows.

(** ** On a text without white space the splitter cuts windows *)

Section HardCuts.

Variables chunk_size chunk_overlap : Z.
Hypothesis overlap_nonneg : 0 <= chunk_overlap.
Hypothesis overlap_lt : chunk_overlap < chunk_size.
Hypothesis size_gt_1 : 1 < chunk_size.

Lemma concat_chars t : concat (chars t) = t.
Proof. induction t as [|c t IH]; simpl; [reflexivity|]. now rewrite IH. Qed.

Lemma length_chars t : length (chars t) = length t.
Proof. apply length_map. Qed.

Lemma chars_app t u : chars (t ++ u) = chars t ++ chars u.
Proof. apply map_app. Qed.

Lemma split_chars t : Splitter._split_text_with_regex t [] = chars t.
Proof.
  unfold Splitter._split_text_with_regex.
  induction t as [|c t IH]; [reflexivity|].
  cbn [map]. rewrite filter_cons_True by done. now rewrite IH.
Qed.

(** The [while] loop keeps the last [chunk_overlap] characters. *)
Lemma pop_front_chars c :
  chunk_overlap <= len c ->
  Splitter.pop_front chunk_size chunk_overlap 1 0 (chars c) (len c)
  = Ok (chars (drop (Z.to_nat (len c - chunk_overlap)) c), chunk_overlap).
Proof.
  induction c as [|a c IH]; intros Hle.
  - replace (len (@nil ascii)) with 0 in * by reflexivity.
    assert (chunk_overlap = 0) as -> by lia.
    cbn [chars map Splitter.pop_front]. unfold Splitter.keep_popping.
    cbn [length Z.of_nat Z.ltb Z.compare Z.gtb orb].
    now rewrite andb_false_r.
  - cbn [chars map Splitter.pop_front]. fold (chars c).
    unfold Splitter.keep_popping.
    replace (len (a :: c)) with (len c + 1) in * by (unfold len; simpl; lia).
    destruct (Z_le_gt_dec (len c + 1) chunk_overlap) as [Hstop|Hgo].
    + replace (len c + 1 >? chunk_overlap) with false by (symmetry; rewrite Z.gtb_ltb; apply Z.ltb_ge; lia).
      replace (len c + 1 + 1 + _ >? chunk_size) with false.
      2:{ destruct (0 <? _); symmetry; rewrite Z.gtb_ltb; apply Z.ltb_ge; lia. }
      cbn [orb andb].
      replace (Z.to_nat (len c + 1 - chunk_overlap)) with 0%nat by lia.
      do 2 f_equal. lia.
    + replace (len c + 1 >? chunk_overlap) with true by (symmetry; apply Z.gtb_lt; lia).
      cbn [orb].
      replace (len [a]) with 1 by reflexivity.
      replace (len c + 1 - (1 + _)) with (len c) by (destruct (1 <? _); lia).
      rewrite IH by lia.
      replace (Z.to_nat (len c + 1 - chunk_overlap)) with (S (Z.to_nat (len c - chunk_overlap))) by lia.
      reflexivity.
Qed.

Lemma join_docs_chars c :
  no_space c ->
  option_list (Splitter._join_docs (chars c) []) = match c with [] => [] | _ => [c] end.
Proof.
  intros H. unfold Splitter._join_docs. rewrite join_nil, concat_chars, strip_id by exact H.
  now destruct c.
Qed.

Lemma merge_loop_chars rest : forall docs c,
  no_space (c ++ rest) -> len c <= chunk_size ->
  Splitter.merge_loop chunk_size chunk_overlap [] (chars rest) docs (chars c) (len c)
  = Ok (docs ++ windows chunk_size chunk_overlap (c ++ rest)).
Proof.
  induction rest as [|d rest IH]; intros docs c Hns Hc.
  - rewrite app_nil_r in *. cbn [chars map Splitter.merge_loop].
    rewrite join_docs_chars by exact Hns.
    destruct c as [|a c]; [reflexivity|].
    now rewrite windows_short.
  - cbn [chars map Splitter.merge_loop]. fold (chars rest).
    replace (len (@nil ascii)) with 0 by reflexivity.
    replace (len [d]) with 1 by reflexivity.
    replace (if 0 <? Z.of_nat (length (chars c)) then 0 else 0) with 0
      by now destruct (0 <? _).
    assert (Hstep : forall docs1 c1,
      no_space (c1 ++ d :: rest) -> len c1 + 1 <= chunk_size ->
      Splitter.merge_loop chunk_size chunk_overlap [] (chars rest) docs1 (chars c1 ++ [[d]])
        (len c1 + 1 + (if 1 <? Z.of_nat (length (chars c1 ++ [[d]])) then 0 else 0))
      = Ok (docs1 ++ windows chunk_size chunk_overlap (c1 ++ d :: rest))).
    { intros docs1 c1 H1 H2.
      replace (len c1 + 1 + _) with (len (c1 ++ [d]))
        by (rewrite len_app; replace (len [d]) with 1 by reflexivity; destruct (1 <? _); lia).
      replace (chars c1 ++ [[d]]) with (chars (c1 ++ [d])) by apply chars_app.
      replace (c1 ++ d :: rest) with ((c1 ++ [d]) ++ rest) in * by now rewrite <- app_assoc.
      apply IH; [assumption|].
      rewrite len_app. replace (len [d]) with 1 by reflexivity. lia. }
    destruct (Z_le_gt_dec (len c + 1) chunk_size) as [Hroom|Hfull].
    + replace (len c + 1 + 0 >? chunk_size) with false
        by (symmetry; rewrite Z.gtb_ltb; apply Z.ltb_ge; lia).
      cbn [mbind result_bind]. now apply Hstep.
    + replace (len c + 1 + 0 >? chunk_size) with true
        by (symmetry; apply Z.gtb_lt; lia).
      assert (Hlen : len c = chunk_size) by lia.
      destruct c as [|a c]; [unfold len in Hlen; simpl in Hlen; lia|].
      remember (a :: c) as c0 eqn:Ec0.
      replace (chars c0) with ([a] :: chars c) at 1 by now subst c0.
      cbn iota. rewrite pop_front_chars by lia.
      cbn [mbind result_bind].
      assert (Hns0 : no_space c0) by (apply Forall_app in Hns; tauto).
      rewrite join_docs_chars by exact Hns0. subst c0.
      set (c0 := a :: c) in *.
      set (c' := drop (Z.to_nat (len c0 - chunk_overlap)) c0).
      assert (Hc' : len c' = chunk_overlap) by (unfold c'; rewrite len_drop; lia).
      replace (chunk_overlap + 1) with (len c' + 1) by lia.
      rewrite Hstep.
      * rewrite <- app_assoc. f_equal.
        rewrite (windows_long chunk_size chunk_overlap overlap_nonneg overlap_lt
                   (c0 ++ d :: rest)).
        2:{ rewrite len_app. unfold len at 2. simpl. lia. }
        rewrite take_app_le by (unfold len in Hlen; lia).
        rewrite take_ge by (unfold len in Hlen; lia).
        rewrite drop_app_le by (unfold len in Hlen; lia).
        unfold c'. rewrite Hlen. reflexivity.
      * apply Forall_app. apply Forall_app in Hns as [Hns1 Hns2].
        split; [|exact Hns2]. now apply Forall_drop.
      * lia.
Qed.

Lemma startswith_head c sep t : startswith (c :: sep) t = true -> c ∈ t.
Proof.
  destruct t as [|b t]; simpl; [discriminate|].
  intros H. apply andb_prop in H as [H _].
  apply bool_decide_eq_true in H as ->. constructor.
Qed.

Lemma contains_head c sep t : contains (c :: sep) t = true -> c ∈ t.
Proof.
  induction t as [|b t IH]; cbn [contains]; intros H.
  - rewrite orb_false_r in H. now apply startswith_head in H.
  - apply orb_prop in H as [H|H]; [now apply startswith_head in H|].
    right. now apply IH.
Qed.

Lemma contains_space c sep t :
  isspace c = true -> no_space t -> contains (c :: sep) t = false.
Proof.
  intros Hc Ht. destruct (contains (c :: sep) t) eqn:E; [|reflexivity].
  apply contains_head in E. unfold no_space in Ht.
  rewrite Forall_forall in Ht. specialize (Ht c E). congruence.
Qed.

Lemma split_loop_chars t : forall fc good,
  Splitter.split_loop chunk_size chunk_overlap None (chars t) fc good
  = Splitter.flush chunk_size chunk_overlap fc (good ++ chars t).
Proof.
  induction t as [|c t IH]; intros fc good.
  - cbn [chars map Splitter.split_loop]. now rewrite app_nil_r.
  - cbn [chars map Splitter.split_loop]. fold (chars t).
    replace (len [c] <? chunk_size) with true
      by (symmetry; apply Z.ltb_lt; unfold len; simpl; lia).
    rewrite IH. now rewrite <- app_assoc.
Qed.

Lemma split_text_no_space t :
  no_space t ->
  Splitter.split_text chunk_size chunk_overlap t
  = Ok (windows chunk_size chunk_overlap t).
Proof.
  intros Hns. unfold Splitter.split_text, Splitter.separators.
  cbn [Splitter._split_text py String.list_ascii_of_string].
  rewrite !contains_space by (exact Hns || reflexivity).
  rewrite split_chars, split_loop_chars. cbn [app].
  destruct t as [|a t]; [reflexivity|].
  cbn [chars map Splitter.flush]. unfold Splitter._merge_splits.
  assert (H0 : len (@nil ascii) <= chunk_size) by (unfold len; simpl; lia).
  pose proof (merge_loop_chars (a :: t) [] [] Hns H0) as Hm.
  cbn [chars map app] in Hm. change (len []) with 0 in Hm.
  rewrite Hm. reflexivity.
Qed.

End HardCuts.

(** ** Paths and lower-casing *)

Lemma lower_char_is c (x : ascii) :
  x = "."%char \/ x = "/"%char ->
  bool_decide (lower_char c = x) = bool_decide (c = x).
Proof.
  intros [-> | ->];
    destruct c as [[] [] [] [] [] [] [] []]; vm_compute; reflexivity.
Qed.

Lemma lower_char_idem c : lower_char (lower_char c) = lower_char c.
Proof. destruct c as [[] [] [] [] [] [] [] []]; vm_compute; reflexivity. Qed.

Lemma lower_idem t : lower (lower t) = lower t.
Proof.
  unfold lower. rewrite List.map_map. apply List.map_ext. apply lower_char_idem.
Qed.

Lemma rfind_from_lower x t : forall i found,
  x = "."%char \/ x = "/"%char ->
  rfind_from x (lower t) i found = rfind_from x t i found.
Proof.
  induction t as [|c t IH]; intros i found Hx; [reflexivity|].
  cbn [lower map rfind_from]. rewrite lower_char_is by exact Hx.
  apply IH, Hx.
Qed.

Lemma rfind_lower x t :
  x = "."%char \/ x = "/"%char -> rfind x (lower t) = rfind x t.
Proof. apply rfind_from_lower. Qed.

Lemma has_non_dot_lower t : has_non_dot (lower t) = has_non_dot t.
Proof.
  induction t as [|c t IH]; [reflexivity|].
  cbn [lower map has_non_dot]. rewrite lower_char_is by now left.
  f_equal. exact IH.
Qed.

Lemma lower_take n t : take n (lower t) = lower (take n t).
Proof. apply List.firstn_map. Qed.

Lemma lower_drop n t : drop n (lower t) = lower (drop n t).
Proof. apply List.skipn_map. Qed.

(** Lower-casing a path lower-cases its root and its extension. *)
Lemma splitext_lower p :
  splitext (lower p) = (lower (splitext p).1, lower (splitext p).2).
Proof.
  unfold splitext. cbv zeta.
  rewrite !rfind_lower by auto.
  rewrite lower_take, lower_drop, has_non_dot_lower.
  destruct (_ && _); cbn [fst snd]; [|reflexivity].
  now rewrite ?lower_take, ?lower_drop.
Qed.

Lemma select_loader_unsupported p :
  let ext := lower (splitext p).2 in
  ext <> py ".pdf" -> ext <> py ".txt" -> ext <> py ".csv" ->
  select_loader p = Raise (ValueError (py "Unsupported file format: " ++ ext)).
Proof.
  intros ext H1 H2 H3. unfold select_loader. fold ext.
  now rewrite !bool_decide_eq_false_2 by assumption.
Qed.

Lemma route_lower p : route (lower p) = route p.
Proof.
  unfold route, select_loader.
  rewrite splitext_lower. cbn [snd]. rewrite lower_idem.
  repeat (case_bool_decide; [reflexivity|]). reflexivity.
Qed.

Lemma os_path_join_absolute a b :
  startswith (py "/") b = true -> os_path_join a b = b.
Proof. intros H. unfold os_path_join. now rewrite H. Qed.

Example outside_abs : ~ inside (py "/tmp") (os_path_join (py "/tmp") (py "/etc/passwd")).
Proof.
  intros H. pose proof (bool_decide_eq_true_2 _ H) as Hb.
  vm_compute in Hb. discriminate.
Qed.

Example splitext_examples :
  splitext (py "/tmp/x.tar.GZ") = (py "/tmp/x.tar", py ".GZ")
  /\ splitext (py "/tmp/a.b/.bashrc") = (py "/tmp/a.b/.bashrc", [])
  /\ splitext (py "/tmp/noext") = (py "/tmp/noext", [])
  /\ splitext (py "a.") = (py "a", py ".").
Proof. repeat split. Qed.

Example os_path_join_examples :
  os_path_join (py "/tmp") (py "notes.txt") = py "/tmp/notes.txt"
  /\ os_path_join (py "/tmp/") (py "notes.txt") = py "/tmp/notes.txt"
  /\ os_path_join (py "/tmp") (py "a/b.txt") = py "/tmp/a/b.txt"
  /\ os_path_join (py "/tmp") (py "/b.txt") = py "/b.txt".
Proof. repeat split. Qed.

(** ** Computations and their traces *)

Lemma bind_run {A B} (m : M A) (k : A -> M B) tr :
  (m ≫= k) tr
  = match m tr with
    | (Ok a, tr') => k a tr'
    | (Raise e, tr') => (Raise e, tr')
    end.
Proof. reflexivity. Qed.

Lemma emits_weaken {A} (m : M A) (P Q : result A -> list Event -> Prop) :
  emits m P -> (forall r new, P r new -> Q r new) -> emits m Q.
Proof.
  intros Hm HPQ tr. destruct (Hm tr) as (r & new & E & HP). eauto.
Qed.

Lemma emits_bind {A B} (m : M A) (k : A -> M B) P Q :
  emits m P -> (forall a, emits (k a) (Q a)) ->
  emits (m ≫= k) (fun r new =>
    (exists e, r = Raise e /\ P (Raise e) new)
    \/ exists a n1 n2, new = n1 ++ n2 /\ P (Ok a) n1 /\ Q a r n2).
Proof.
  intros Hm Hk tr. rewrite bind_run.
  destruct (Hm tr) as ([a|e] & n1 & -> & HP).
  - destruct (Hk a (tr ++ n1)) as (r & n2 & -> & HQ).
    exists r, (n1 ++ n2). rewrite app_assoc. split; [reflexivity|].
    right. eauto 7.
  - exists (Raise e), n1. split; [reflexivity|]. left. eauto.
Qed.

Lemma emits_ret {A} (a : A) (P : result A -> list Event -> Prop) :
  P (Ok a) [] -> emits (mret a) P.
Proof. intros H tr. exists (Ok a), []. now rewrite app_nil_r. Qed.

Lemma emits_lift {A} (r : result A) (P : result A -> list Event -> Prop) :
  P r [] -> emits (lift r) P.
Proof. intros H tr. exists r, []. now rewrite app_nil_r. Qed.

Lemma emits_call {A} c (r : result A) (P : result A -> list Event -> Prop) :
  (forall a, r = Ok a -> P (Ok a) [ECall c None]) ->
  (forall e, r = Raise e -> P (Raise e) [ECall c (Some e)]) ->
  emits (call c r) P.
Proof.
  intros H1 H2 tr. unfold call. destruct r as [a|e]; eauto.
Qed.

Lemma emits_print {console : Console} line (P : result unit -> list Event -> Prop) :
  (stdout line = Ok tt -> P (Ok tt) [EPrint line]) ->
  (forall e, stdout line = Raise e -> P (Raise e) []) ->
  emits (print line) P.
Proof.
  intros H1 H2 tr. unfold print. destruct (stdout line) as [[]|e].
  - exists (Ok tt), [EPrint line]. auto.
  - exists (Raise e), []. rewrite app_nil_r. auto.
Qed.

(** *** A raised call ends the computation *)

Lemma quiet_app l k : quiet l -> quiet k -> quiet (l ++ k).
Proof. apply Forall_app_2. Qed.

Lemma halting_bind {A B} (m : M A) (k : A -> M B) :
  halting m -> (forall a, halting (k a)) -> halting (m ≫= k).
Proof.
  intros Hm Hk. eapply emits_weaken; [apply (emits_bind _ _ _ _ Hm Hk)|].
  intros r new [(e & -> & H)|(a & n1 & n2 & -> & H1 & H2)]; [exact H|].
  cbn in H1. destruct r as [b|e]; cbn in *.
  - now apply quiet_app.
  - destruct H2 as [H2|(pre & c & -> & H2)].
    + left. now apply quiet_app.
    + right. exists (n1 ++ pre), c. rewrite app_assoc. split; [reflexivity|].
      now apply quiet_app.
Qed.

Lemma halting_ret {A} (a : A) : halting (mret a).
Proof. apply emits_ret. constructor. Qed.

Lemma halting_lift {A} (r : result A) : halting (lift r).
Proof. apply emits_lift. destruct r; [constructor|left; constructor]. Qed.

Lemma halting_call {A} c (r : result A) : halting (call c r).
Proof.
  apply emits_call; intros ? _; cbn.
  - repeat constructor.
  - right. exists [], c. split; [reflexivity|constructor].
Qed.

Lemma halting_print {console : Console} line : halting (print line).
Proof. apply emits_print; intros; [repeat constructor|left; constructor]. Qed.

Create HintDb halting.
#[local] Hint Resolve halting_ret halting_lift halting_call halting_print : halting.

Ltac halting :=
  repeat first
    [ solve [auto with halting]
    | apply halting_bind; [|intro] ].

Lemma halting_authenticate w : halting (authenticate_drive w).
Proof. apply halting_call. Qed.

Lemma halting_download_loop answers : halting (download_loop answers).
Proof.
  induction answers as [|r answers IH]; cbn [download_loop]; [halting|].
  apply halting_bind; [halting|]. intros [|]; [halting|exact IH].
Qed.

#[local] Hint Resolve halting_authenticate halting_download_loop : halting.

Lemma halting_download {console : Console} w file_id file_name :
  halting (download_file_from_drive w file_id file_name).
Proof. unfold download_file_from_drive. halting. Qed.

#[local] Hint Resolve halting_download : halting.

Lemma halting_pipeline {console : Console} w file_id : halting (pipeline w file_id).
Proof.
  unfold pipeline, load_document, chunk_documents, embed_and_store.
  halting.
Qed.

(** *** Where a raised call can stand in a trace *)

Lemma quiet_no_raised l pre x post :
  quiet l -> l = pre ++ x :: post -> raised x = false.
Proof.
  intros H ->. apply Forall_app in H as [_ H]. now apply Forall_cons in H as [H _].
Qed.

Lemma raised_unique pre x post pre' y post' :
  quiet pre -> quiet post -> raised y = true ->
  pre ++ x :: post = pre' ++ y :: post' ->
  pre' = pre /\ y = x /\ post' = post.
Proof.
  intros Hpre Hpost Hy. revert pre' Hpre.
  induction pre as [|a pre IH]; intros pre' Hpre E.
  - destruct pre' as [|b pre']; cbn in E.
    + now injection E as -> ->.
    + injection E as -> E.
      rewrite (quiet_no_raised _ _ _ _ Hpost E) in Hy. discriminate.
  - apply Forall_cons in Hpre as [Ha Hpre].
    destruct pre' as [|b pre']; cbn in E.
    + injection E as -> _. congruence.
    + injection E as -> E. destruct (IH pre' Hpre E) as (-> & -> & ->). auto.
Qed.

(** The [except] clause: the error body once the error line is printed;
    the exception of [print] when the console refuses the line. *)
Lemma except_clause_run {console : Console} e tr :
  except_clause e tr
  = match stdout (LogError e) with
    | Ok _ => (Ok (error_response e), tr ++ [EPrint (LogError e)])
    | Raise e' => (Raise e', tr)
    end.
Proof.
  unfold except_clause. rewrite bind_run. unfold print.
  destruct (stdout (LogError e)) as [[]|e']; reflexivity.
Qed.

Lemma process_try {console : Console} w file_id tr :
  process_drive_file w file_id tr
  = match pipeline w file_id tr with
    | (Ok (file_name, chunks), tr') =>
        (Ok (success_response file_name (len chunks)), tr')
    | (Raise e, tr') => except_clause e tr'
    end.
Proof.
  unfold process_drive_file, try_except. rewrite bind_run.
  destruct (pipeline w file_id tr) as [[[n ch]|e] tr']; reflexivity.
Qed.

(** On the console that takes every line, [print] writes its line. *)
Lemma print_run line tr : print line tr = (Ok tt, tr ++ [EPrint line]).
Proof. reflexivity. Qed.

Lemma process_run w file_id tr :
  process_drive_file w file_id tr
  = match pipeline w file_id tr with
    | (Ok (file_name, chunks), tr') =>
        (Ok (success_response file_name (len chunks)), tr')
    | (Raise e, tr') => (Ok (error_response e), tr' ++ [EPrint (LogError e)])
    end.
Proof.
  rewrite process_try.
  destruct (pipeline w file_id tr) as [[[n ch]|e] tr']; reflexivity.
Qed.

(** The events after a call that raised: the error line, if the console
    takes it. *)
Lemma except_clause_events {console : Console} e tr r tr' :
  except_clause e tr = (r, tr') ->
  exists post, tr' = tr ++ post /\ quiet post
    /\ match stdout (LogError e) with
       | Ok _ => post = [EPrint (LogError e)] /\ r = Ok (error_response e)
       | Raise e' => post = [] /\ r = Raise e'
       end.
Proof.
  rewrite except_clause_run. destruct (stdout (LogError e)) as [[]|e']; intros E;
    injection E as <- <-.
  - exists [EPrint (LogError e)]. repeat split; repeat constructor.
  - exists []. rewrite app_nil_r. repeat split; constructor.
Qed.

Lemma process_halts {console : Console} w file_id r tr :
  process_drive_file w file_id [] = (r, tr) ->
  forall pre c e post,
    tr = pre ++ ECall c (Some e) :: post ->
    except_clause e (pre ++ [ECall c (Some e)]) = (r, tr).
Proof.
  rewrite process_try.
  destruct (halting_pipeline w file_id []) as (r0 & new & -> & H).
  cbn [app]. destruct r0 as [[n ch]|e0]; cbn in H; intros E pre c e post Htr.
  - injection E as <- <-.
    pose proof (quiet_no_raised _ _ _ _ H Htr). discriminate.
  - destruct (except_clause_events _ _ _ _ E) as (post0 & -> & Hq0 & _).
    destruct H as [H|(pre0 & c0 & -> & H)].
    + pose proof (quiet_no_raised _ _ _ _ (quiet_app _ _ H Hq0) Htr). discriminate.
    + rewrite <- app_assoc in Htr. cbn [app] in Htr.
      destruct (raised_unique pre0 (ECall c0 (Some e0)) post0
                  pre (ECall c (Some e)) post) as (-> & Heq & ->);
        [exact H|exact Hq0|reflexivity|exact Htr|].
      injection Heq as -> ->. rewrite E. now rewrite <- app_assoc.
Qed.

(** *** Stages *)

Lemma inner_app s l k : inner s l -> inner s k -> inner s (l ++ k).
Proof. apply Forall_app_2. Qed.

Lemma inner_not_completed s l : inner s l -> completed s l = false.
Proof.
  induction 1 as [|ev l [_ H] _ IH]; [reflexivity|].
  cbn. now rewrite H.
Qed.

Lemma inner_stage s l : inner s l -> Forall (fun ev => stage_of ev = Some s) l.
Proof. intros H. eapply Forall_impl; [exact H|]. now intros ev [? _]. Qed.

Lemma completed_app s l k : completed s (l ++ k) = completed s l || completed s k.
Proof. apply existsb_app. Qed.

Lemma within_bind {A B} s (m : M A) (k : A -> M B) :
  within s m -> (forall a, within s (k a)) -> within s (m ≫= k).
Proof.
  intros Hm Hk. eapply emits_weaken; [apply (emits_bind _ _ _ _ Hm Hk)|].
  intros r new [(e & -> & H)|(a & n1 & n2 & -> & H1 & H2)]; [exact H|].
  now apply inner_app.
Qed.

Lemma runs_stage_bind {A B} s (m : M A) (k : A -> M B) :
  within s m -> (forall a, runs_stage s (k a)) -> runs_stage s (m ≫= k).
Proof.
  intros Hm Hk. eapply emits_weaken; [apply (emits_bind _ _ _ _ Hm Hk)|].
  intros r new [(e & -> & H)|(a & n1 & n2 & -> & H1 & H2 & H3)].
  - split; [now apply inner_stage|]. now apply inner_not_completed.
  - split; [apply Forall_app_2; [now apply inner_stage|exact H2]|].
    rewrite completed_app, (inner_not_completed _ _ H1). exact H3.
Qed.

(** A stage ends by printing its last line and returning. *)
Lemma runs_stage_end {console : Console} {A} s line (a : A) :
  stage_of (EPrint line) = Some s -> completes s (EPrint line) = true ->
  runs_stage s (print line ≫= fun _ => mret a).
Proof.
  intros H1 H2 tr. rewrite bind_run. unfold print.
  destruct (stdout line) as [[]|e].
  - exists (Ok a), [EPrint line]. split; [reflexivity|].
    split; [repeat constructor; exact H1|]. cbn. now rewrite H2.
  - exists (Raise e), []. rewrite app_nil_r. split; [reflexivity|].
    split; [constructor|reflexivity].
Qed.

Lemma runs_stage_then_ret {A B} s (m : M A) (f : A -> B) :
  runs_stage s m -> runs_stage s (m ≫= fun a => mret (f a)).
Proof.
  intros Hm tr. rewrite bind_run. destruct (Hm tr) as ([a|e] & new & -> & H).
  - exists (Ok (f a)), new. split; [reflexivity|exact H].
  - exists (Raise e), new. split; [reflexivity|exact H].
Qed.

Lemma within_ret {A} s (a : A) : within s (mret a).
Proof. apply emits_ret. constructor. Qed.

Lemma within_lift {A} s (r : result A) : within s (lift r).
Proof. apply emits_lift. constructor. Qed.

Lemma within_call {A} s c (r : result A) :
  (forall o, stage_of (ECall c o) = Some s) -> within s (call c r).
Proof.
  intros H. apply emits_call; intros; (constructor; [split; [apply H|now destruct s]|constructor]).
Qed.

Lemma within_print {console : Console} s line :
  stage_of (EPrint line) = Some s -> completes s (EPrint line) = false ->
  within s (print line).
Proof.
  intros H1 H2. apply emits_print; intros; [repeat constructor; assumption|constructor].
Qed.

Lemma within_download_loop answers : within Fetch (download_loop answers).
Proof.
  induction answers as [|r answers IH]; cbn [download_loop].
  - now apply within_call.
  - apply within_bind; [now apply within_call|].
    intros [|]; [apply within_ret|exact IH].
Qed.

Lemma runs_download {console : Console} w file_id file_name :
  runs_stage Fetch (download_file_from_drive w file_id file_name).
Proof.
  unfold download_file_from_drive, authenticate_drive.
  repeat (apply runs_stage_bind; [first [now apply within_call|apply within_download_loop]|intro]).
  now apply runs_stage_end.
Qed.

Lemma runs_fetch {console : Console} w file_id : runs_stage Fetch (fetch w file_id).
Proof.
  unfold fetch, authenticate_drive.
  repeat (apply runs_stage_bind;
          [first [now apply within_call|apply within_lift|now apply within_print]|intro]).
  apply (runs_stage_then_ret Fetch _ (fun p => (_, p))), runs_download.
Qed.

Lemma runs_load {console : Console} w file_path : runs_stage Parse (load_document w file_path).
Proof.
  unfold load_document.
  repeat (apply runs_stage_bind; [first [now apply within_call|apply within_lift]|intro]).
  now apply runs_stage_end.
Qed.

Lemma runs_chunk {console : Console} docs : runs_stage Chunk (chunk_documents docs).
Proof.
  unfold chunk_documents.
  repeat (apply runs_stage_bind; [apply within_lift|intro]).
  now apply runs_stage_end.
Qed.

Lemma runs_embed {console : Console} w chunks : runs_stage Embed (embed_and_store w chunks).
Proof.
  unfold embed_and_store.
  repeat (apply runs_stage_bind; [now apply within_call|intro]).
  now apply runs_stage_end.
Qed.

(** *** The handler runs its stages in order *)

Lemma bind_bind {A B C} (m : M A) (k : A -> M B) (h : B -> M C) tr :
  ((m ≫= k) ≫= h) tr = (m ≫= fun a => k a ≫= h) tr.
Proof.
  rewrite !bind_run. destruct (m tr) as [[a|e] tr']; [|reflexivity].
  now rewrite bind_run.
Qed.

Lemma bind_cong {A B} (m : M A) (k k' : A -> M B) tr :
  (forall a tr', k a tr' = k' a tr') -> (m ≫= k) tr = (m ≫= k') tr.
Proof.
  intros H. rewrite !bind_run. destruct (m tr) as [[a|e] tr']; [apply H|reflexivity].
Qed.

Lemma pipeline_fetch {console : Console} w file_id tr :
  pipeline w file_id tr
  = (fetch w file_id ≫= fun '(file_name, file_path) =>
     load_document w file_path ≫= fun docs =>
     chunk_documents docs ≫= fun chunks =>
     embed_and_store w chunks ≫= fun _ =>
     mret (file_name, chunks)) tr.
Proof.
  unfold pipeline, fetch.
  repeat (rewrite bind_bind; apply bind_cong; intros).
  reflexivity.
Qed.

Lemma pipeline_staged {console : Console} w file_id : emits (pipeline w file_id) staged.
Proof.
  intros tr. rewrite pipeline_fetch, bind_run.
  destruct (runs_fetch w file_id tr) as ([[n p]|e] & nf & -> & Hf & Cf); cbn in Cf.
  2:{ exists (Raise e), nf. split; [reflexivity|].
      exists nf, [], [], []. rewrite !app_nil_r. repeat split; auto. }
  rewrite bind_run.
  destruct (runs_load w p (tr ++ nf)) as ([docs|e] & np & -> & Hp & Cp); cbn in Cp.
  2:{ exists (Raise e), (nf ++ np). rewrite app_assoc. split; [reflexivity|].
      exists nf, np, [], []. rewrite !app_nil_r. repeat split; auto; congruence. }
  rewrite bind_run.
  destruct (runs_chunk docs ((tr ++ nf) ++ np)) as ([chunks|e] & nc & -> & Hc & Cc); cbn in Cc.
  2:{ exists (Raise e), (nf ++ np ++ nc). rewrite !app_assoc. split; [reflexivity|].
      exists nf, np, nc, []. rewrite !app_nil_r, !app_assoc.
      repeat split; auto; congruence. }
  rewrite bind_run.
  destruct (runs_embed w chunks (((tr ++ nf) ++ np) ++ nc)) as ([b|e] & ne & -> & He & Ce);
    cbn in Ce.
  - exists (Ok (n, chunks)), (nf ++ np ++ nc ++ ne). rewrite !app_assoc.
    split; [reflexivity|].
    exists nf, np, nc, ne. rewrite !app_assoc. repeat split; auto; congruence.
  - exists (Raise e), (nf ++ np ++ nc ++ ne). rewrite !app_assoc.
    split; [reflexivity|].
    exists nf, np, nc, ne. rewrite !app_assoc. repeat split; auto; congruence.
Qed.

Lemma completed_nil s : completed s [] = false.
Proof. reflexivity. Qed.

Lemma stage_mem s l ev :
  Forall (fun ev => stage_of ev = Some s) l -> ev ∈ l -> stage_of ev = Some s.
Proof. intros H. rewrite Forall_forall in H. apply H. Qed.

(** In a staged trace, an event of a stage is preceded by the
    completion of every earlier stage. *)
Lemma staged_gate {A} (r : result A) new ev s s' :
  staged r new -> ev ∈ new -> stage_of ev = Some s ->
  (stage_rank s' < stage_rank s)%nat -> completed s' new = true.
Proof.
  intros (nf & np & nc & ne & -> & Hf & Hp & Hc & He & Gf & Gp & Gc & _) Hin Hs Hlt.
  assert (Hne : ne <> [] -> completed Chunk nc = true).
  { intros H. destruct (completed Chunk nc); [reflexivity|]. now destruct H; apply Gc. }
  assert (Hnc : nc <> [] -> completed Parse np = true).
  { intros H. destruct (completed Parse np); [reflexivity|]. now destruct H; apply Gp. }
  assert (Hnp : np <> [] -> completed Fetch nf = true).
  { intros H. destruct (completed Fetch nf); [reflexivity|]. now destruct H; apply Gf. }
  assert (Hc' : completed Chunk nc = true -> nc <> []) by (intros H ->; discriminate).
  assert (Hp' : completed Parse np = true -> np <> []) by (intros H ->; discriminate).
  assert (Hmem : forall l : list Event, ev ∈ l -> l <> []).
  { intros l H ->. now apply not_elem_of_nil in H. }
  rewrite !completed_app.
  rewrite !elem_of_app in Hin.
  destruct Hin as [Hin|[Hin|[Hin|Hin]]].
  - rewrite (stage_mem _ _ _ Hf Hin) in Hs. injection Hs as <-.
    destruct s'; cbn in Hlt; lia.
  - rewrite (stage_mem _ _ _ Hp Hin) in Hs. injection Hs as <-.
    destruct s'; cbn in Hlt; try lia.
    now rewrite Hnp by eauto.
  - rewrite (stage_mem _ _ _ Hc Hin) in Hs. injection Hs as <-.
    destruct s'; cbn in Hlt; try lia.
    + now rewrite Hnp by eauto.
    + rewrite (Hnc (Hmem _ Hin)). now rewrite orb_true_r.
  - rewrite (stage_mem _ _ _ He Hin) in Hs. injection Hs as <-.
    pose proof (Hne (Hmem _ Hin)) as H3.
    pose proof (Hnc (Hc' H3)) as H2.
    pose proof (Hnp (Hp' H2)) as H1.
    destruct s'; cbn in Hlt; try lia.
    + now rewrite H1.
    + rewrite H2. now rewrite orb_true_r.
    + rewrite H3. now rewrite !orb_true_r.
Qed.

Lemma completes_stage s ev : completes s ev = true -> stage_of ev = Some s.
Proof. destruct s, ev as [c o|[]]; try discriminate; reflexivity. Qed.

Lemma other_stage_not_completed s s' l :
  Forall (fun ev => stage_of ev = Some s) l -> s <> s' -> completed s' l = false.
Proof.
  intros H Hne. induction H as [|ev l Hev _ IH]; [reflexivity|].
  change (completed s' (ev :: l)) with (completes s' ev || completed s' l).
  rewrite IH, orb_false_r.
  destruct (completes s' ev) eqn:E; [|reflexivity].
  apply completes_stage in E. congruence.
Qed.

Lemma staged_completed {A} (r : result A) new :
  staged r new -> completed Embed new = is_ok r.
Proof.
  intros (nf & np & nc & ne & -> & Hf & Hp & Hc & He & _ & _ & _ & <-).
  rewrite !completed_app.
  rewrite (other_stage_not_completed Fetch Embed nf), (other_stage_not_completed Parse Embed np),
    (other_stage_not_completed Chunk Embed nc) by (assumption || discriminate).
  reflexivity.
Qed.

(** ** The chunking stage *)

Lemma check_config_default : Splitter.check_config 4000 200 = Ok tt.
Proof. reflexivity. Qed.

Lemma chunk_documents_run docs tr :
  chunk_documents docs tr
  = match split_documents 4000 200 docs with
    | Ok chunks => (Ok chunks, tr ++ [EPrint (LogCreated (len chunks))])
    | Raise e => (Raise e, tr)
    end.
Proof.
  unfold chunk_documents. rewrite bind_run. cbn [lift Splitter.check_config Z.leb Z.ltb Z.gtb Z.compare Pos.compare Pos.compare_cont].
  rewrite bind_run. unfold lift.
  destruct (split_documents 4000 200 docs); reflexivity.
Qed.

Lemma split_text_fits text :
  exists chunks,
    Splitter.split_text 4000 200 text = Ok chunks
    /\ Forall (fun c => len c <= 4000) chunks.
Proof.
  apply (_split_text_fits 4000 200); [lia|lia|reflexivity|lia].
Qed.

Lemma split_documents_fit docs :
  exists chunks,
    split_documents 4000 200 docs = Ok chunks
    /\ Forall (fun c => len (page_content c) <= 4000) chunks.
Proof.
  induction docs as [|doc docs (more & Hmore & Hfit)]; cbn [split_documents].
  - exists []. split; [reflexivity|constructor].
  - destruct (split_text_fits (page_content doc)) as (texts & -> & Htexts).
    cbn [mbind result_bind]. rewrite Hmore. cbn [mbind result_bind].
    eexists. split; [reflexivity|].
    apply Forall_app_2; [|exact Hfit].
    apply Forall_forall. intros c Hc.
    apply list_elem_of_fmap in Hc as (t & -> & Ht). cbn [page_content].
    rewrite Forall_forall in Htexts. now apply Htexts.
Qed.

Lemma chunk_documents_fit docs tr :
  exists chunks,
    chunk_documents docs tr = (Ok chunks, tr ++ [EPrint (LogCreated (len chunks))])
    /\ Forall (fun c => len (page_content c) <= 4000) chunks.
Proof.
  destruct (split_documents_fit docs) as (chunks & E & H).
  exists chunks. rewrite chunk_documents_run, E. auto.
Qed.

Lemma split_documents_no_space doc :
  no_space (page_content doc) ->
  split_documents 4000 200 [doc]
  = Ok (map (fun t => mkDocument t (metadata doc)) (windows 4000 200 (page_content doc))).
Proof.
  intros H. cbn [split_documents].
  rewrite (split_text_no_space 4000 200) by (lia || exact H).
  cbn [mbind result_bind]. now rewrite app_nil_r.
Qed.

Lemma lookup_map_document (md : gmap (list ascii) (list ascii)) texts i c :
  map (fun t => mkDocument t md) texts !! i = Some c ->
  texts !! i = Some (page_content c).
Proof.
  revert i. induction texts as [|t texts IH]; intros [|i] H; try discriminate.
  - cbn in H. injection H as <-. reflexivity.
  - now apply IH.
Qed.

Lemma windows_9000 t :
  len t = 9000 ->
  windows 4000 200 t
  = [take (Z.to_nat 4000) t;
     take (Z.to_nat 4000) (drop (Z.to_nat 3800) t);
     drop (Z.to_nat 7600) t].
Proof.
  intros H.
  rewrite (windows_long 4000 200) by lia.
  change (Z.to_nat (4000 - 200)) with (Z.to_nat 3800).
  rewrite (windows_long 4000 200) by (rewrite ?len_drop; lia).
  rewrite drop_drop.
  rewrite (windows_short 4000 200).
  - repeat f_equal; lia.
  - intros E. apply (f_equal len) in E. rewrite len_drop in E.
    change (len []) with 0 in E. lia.
  - rewrite len_drop. lia.
Qed.

(** ** Running the handler after a successful download *)

Lemma process_after_fetch w file_id tr file_name file_path tr1 :
  fetch w file_id tr = (Ok (file_name, file_path), tr1) ->
  pipeline w file_id tr
  = (load_document w file_path ≫= fun docs =>
     chunk_documents docs ≫= fun chunks =>
     embed_and_store w chunks ≫= fun _ =>
     mret (file_name, chunks)) tr1.
Proof. intros H. rewrite pipeline_fetch, bind_run, H. reflexivity. Qed.

Lemma embed_and_store_run w chunks tr :
  embed_and_store w chunks tr
  = match from_documents w chunks with
    | Ok _ =>
        (Ok true,
         tr ++ [ECall (FromDocuments chunks OLLAMA_MODEL QDRANT_URL COLLECTION_NAME) None;
                EPrint (LogStored (len chunks) COLLECTION_NAME)])
    | Raise e =>
        (Raise e,
         tr ++ [ECall (FromDocuments chunks OLLAMA_MODEL QDRANT_URL COLLECTION_NAME) (Some e)])
    end.
Proof.
  unfold embed_and_store. rewrite bind_run. unfold call.
  destruct (from_documents w chunks) as [[]|e]; [|reflexivity].
  rewrite bind_run. unfold print. cbn. now rewrite <- app_assoc.
Qed.

Lemma load_document_run w file_path tr :
  load_document w file_path tr
  = match select_loader file_path with
    | Raise e => (Raise e, tr)
    | Ok loader =>
        match loader_load w loader with
        | Ok docs =>
            (Ok docs, tr ++ [ECall (Load loader) None; EPrint (LogLoaded (len docs) file_path)])
        | Raise e => (Raise e, tr ++ [ECall (Load loader) (Some e)])
        end
    end.
Proof.
  unfold load_document. rewrite bind_run. unfold lift.
  destruct (select_loader file_path) as [loader|e]; [|reflexivity].
  rewrite bind_run. unfold call.
  destruct (loader_load w loader) as [docs|e]; [|reflexivity].
  rewrite bind_run. unfold print. cbn. now rewrite <- app_assoc.
Qed.

(** ** What stripping removes *)

Lemma all_space_app g h : all_space g -> all_space h -> all_space (g ++ h).
Proof. apply Forall_app_2. Qed.

Lemma lstrip_split t : exists g, t = g ++ lstrip t /\ all_space g.
Proof.
  induction t as [|c t (g & E & Hg)]; cbn [lstrip].
  - exists []. split; [reflexivity|constructor].
  - destruct (isspace c) eqn:Hc.
    + exists (c :: g). split; [cbn; now rewrite <- E|now constructor].
    + exists []. split; [reflexivity|constructor].
Qed.

Lemma rstrip_split t : exists g, t = rstrip t ++ g /\ all_space g.
Proof.
  unfold rstrip. destruct (lstrip_split (reverse t)) as (g & E & Hg).
  exists (reverse g). split; [|now apply Forall_reverse].
  rewrite <- reverse_app, <- E. now rewrite reverse_involutive.
Qed.

Lemma strip_split t :
  exists g g', t = g ++ strip t ++ g' /\ all_space g /\ all_space g'.
Proof.
  unfold strip. destruct (lstrip_split t) as (g & E & Hg).
  destruct (rstrip_split (lstrip t)) as (g' & E' & Hg').
  exists g, g'. split; [|auto]. now rewrite <- E', <- E.
Qed.

(** Stripping [x ++ y]: what is left is some of [x] followed by a part
    of [y], and the rest of [y] is white space. *)
Lemma strip_app_split x y :
  exists carried new g g',
    strip (x ++ y) = carried ++ new
    /\ y = g ++ new ++ g'
    /\ all_space g /\ all_space g'
    /\ len carried <= len x.
Proof.
  destruct (strip_split (x ++ y)) as (a & b & E & Ha & Hb).
  remember (strip (x ++ y)) as s eqn:Hs. clear Hs.
  apply app_eq_inv in E as [(k & Ex & Ey)|(k & Ea & Ey)].
  - (* the leading white space ends inside [x] *)
    symmetry in Ey.
    apply app_eq_inv in Ey as [(k' & Es & Eb)|(k' & Ek & Ey)].
    + (* what is left ends inside [x] too *)
      exists s, [], y, []. rewrite app_nil_r. repeat split.
      * now rewrite app_nil_r.
      * subst b. now apply Forall_app in Hb as [_ ?].
      * constructor.
      * subst x k. rewrite !len_app.
        pose proof (len_nonneg a). pose proof (len_nonneg k'). lia.
    + exists k, k', [], b. repeat split; auto.
      * constructor.
      * subst x. rewrite len_app. pose proof (len_nonneg a). lia.
  - (* [x] is white space *)
    exists [], s, k, b. repeat split; auto.
    + subst a. now apply Forall_app in Ha as [_ ?].
    + change (len []) with 0. apply len_nonneg.
Qed.

(** ** Covering a text *)

Lemma covers_space_before k g chunks t :
  all_space g -> covers k chunks t -> covers k chunks (g ++ t).
Proof.
  intros Hg H. destruct H as [gap Hgap|gap carried new chunk chunks rest Hgap E Hc H].
  - constructor. now apply all_space_app.
  - rewrite app_assoc. econstructor; eauto. now apply all_space_app.
Qed.

Lemma covers_app k chunks1 chunks2 t1 t2 :
  covers k chunks1 t1 -> covers k chunks2 t2 -> covers k (chunks1 ++ chunks2) (t1 ++ t2).
Proof.
  intros H1 H2. induction H1 as [gap Hgap|gap carried new chunk chunks rest Hgap E Hc H IH].
  - now apply covers_space_before.
  - cbn [app]. rewrite <- !app_assoc. econstructor; eauto.
Qed.

Lemma covers_space_after k g chunks t :
  all_space g -> covers k chunks t -> covers k chunks (t ++ g).
Proof.
  intros Hg H. rewrite <- (app_nil_r chunks). apply covers_app; [exact H|now constructor].
Qed.

Lemma covers_whole k chunk : 0 <= k -> covers k [chunk] chunk.
Proof.
  intros Hk.
  replace chunk with ([] ++ chunk ++ []) at 2 by now rewrite app_nil_r.
  apply (covers_cons k [] [] chunk chunk [] []).
  - constructor.
  - reflexivity.
  - exact Hk.
  - constructor. constructor.
Qed.

Lemma covers_weaken k k' chunks t : k <= k' -> covers k chunks t -> covers k' chunks t.
Proof.
  intros Hk H. induction H; econstructor; eauto. lia.
Qed.

(** ** Merging pieces covers their concatenation *)

Section MergeCovers.

Variables chunk_size chunk_overlap : Z.
Hypothesis overlap_nonneg : 0 <= chunk_overlap.

Local Abbreviation covered := (covers chunk_overlap).

(** What the loop emits when it closes [current_doc], of which [ov] was
    carried over and [nw] is new. *)
Lemma emit_covers docs emitted ov nw :
  covered docs emitted -> len (concat ov) <= chunk_overlap ->
  covered (docs ++ option_list (Splitter._join_docs (ov ++ nw) []))
          (emitted ++ concat nw).
Proof.
  intros Hdocs Hov. unfold Splitter._join_docs.
  rewrite join_nil, concat_app.
  destruct (strip_app_split (concat ov) (concat nw))
    as (carried & new & g & g' & Es & Ey & Hg & Hg' & Hc).
  rewrite Es, Ey.
  destruct (carried ++ new) as [|c s] eqn:E.
  - apply app_eq_nil in E as [-> ->]. cbn [option_list]. rewrite app_nil_r.
    apply covers_space_after; [|exact Hdocs]. now apply all_space_app.
  - cbn [option_list]. rewrite <- E. apply covers_app; [exact Hdocs|].
    apply (covers_cons chunk_overlap g carried new); auto; [lia|now constructor].
Qed.

Lemma merge_loop_covers splits : forall docs ov nw emitted,
  covered docs emitted -> len (concat ov) <= chunk_overlap ->
  exists out,
    Splitter.merge_loop chunk_size chunk_overlap [] splits docs (ov ++ nw)
      (len (concat (ov ++ nw)))
    = Ok out
    /\ covered out (emitted ++ concat nw ++ concat splits).
Proof.
  induction splits as [|d splits IH]; intros docs ov nw emitted Hdocs Hov.
  - eexists. split; [reflexivity|]. cbn [concat]. rewrite app_nil_r.
    now apply emit_covers.
  - cbn [Splitter.merge_loop].
    replace (len (@nil ascii)) with 0 by reflexivity.
    assert (Hstep : forall docs1 ov1 nw1 emitted1,
      covered docs1 emitted1 -> len (concat ov1) <= chunk_overlap ->
      emitted1 ++ concat nw1 = emitted ++ concat nw ->
      exists out,
        Splitter.merge_loop chunk_size chunk_overlap [] splits docs1 ((ov1 ++ nw1) ++ [d])
          (len (concat (ov1 ++ nw1)) + len d
           + (if 1 <? Z.of_nat (length ((ov1 ++ nw1) ++ [d])) then 0 else 0))
        = Ok out /\ covered out (emitted ++ concat nw ++ concat (d :: splits))).
    { intros docs1 ov1 nw1 emitted1 H1 H2 H3.
      replace (len (concat (ov1 ++ nw1)) + len d + _)
        with (len (concat (ov1 ++ (nw1 ++ [d])))).
      2:{ rewrite app_assoc, (concat_app (ov1 ++ nw1)), len_app. simpl.
          rewrite app_nil_r. destruct (1 <? _); lia. }
      rewrite <- app_assoc.
      destruct (IH docs1 ov1 (nw1 ++ [d]) emitted1 H1 H2) as (out & -> & Hout).
      exists out. split; [reflexivity|].
      rewrite concat_app in Hout. cbn [concat] in Hout |- *.
      rewrite app_nil_r in Hout. rewrite <- !app_assoc in Hout.
      rewrite app_assoc, <- H3, <- app_assoc. exact Hout. }
    replace (if 0 <? Z.of_nat (length (ov ++ nw)) then 0 else 0) with 0
      by now destruct (0 <? _).
    destruct (len (concat (ov ++ nw)) + len d + 0 >? chunk_size).
    + destruct (ov ++ nw) as [|c0 cur0] eqn:Ecur.
      * apply app_eq_nil in Ecur as [-> ->]. cbn [mbind result_bind].
        apply (Hstep docs [] [] emitted); auto.
      * rewrite <- Ecur.
        destruct (pop_front_spec chunk_size chunk_overlap overlap_nonneg (len d) (ov ++ nw)
                    (len_nonneg d)) as (cur' & Hrun & _ & Hle & _).
        rewrite Hrun. cbn [mbind result_bind].
        assert (Hd : covered (docs ++ option_list (Splitter._join_docs (ov ++ nw) []))
                       (emitted ++ concat nw)) by now apply emit_covers.
        assert (He : (emitted ++ concat nw) ++ concat [] = emitted ++ concat nw)
          by apply app_nil_r.
        pose proof (Hstep _ cur' [] (emitted ++ concat nw) Hd Hle He) as H.
        rewrite app_nil_r in H. exact H.
    + cbn [mbind result_bind]. now apply (Hstep docs ov nw emitted).
Qed.

Lemma merge_splits_covers splits :
  exists out,
    Splitter._merge_splits chunk_size chunk_overlap splits [] = Ok out
    /\ covered out (concat splits).
Proof.
  unfold Splitter._merge_splits.
  destruct (merge_loop_covers splits [] [] [] []) as (out & E & H).
  - constructor. constructor.
  - exact overlap_nonneg.
  - exists out. split; [exact E|exact H].
Qed.

Lemma flush_covers fc good emitted :
  covered fc emitted ->
  exists out,
    Splitter.flush chunk_size chunk_overlap fc good = Ok out
    /\ covered out (emitted ++ concat good).
Proof.
  intros Hfc. destruct good as [|g good]; cbn [Splitter.flush].
  - exists fc. cbn [concat]. now rewrite app_nil_r.
  - destruct (merge_splits_covers (g :: good)) as (m & -> & Hm).
    cbn [mbind result_bind]. eexists. split; [reflexivity|]. now apply covers_app.
Qed.

Lemma split_loop_covers recurse splits : forall fc good emitted,
  recurse_covers chunk_overlap recurse -> covered fc emitted ->
  exists out,
    Splitter.split_loop chunk_size chunk_overlap recurse splits fc good = Ok out
    /\ covered out (emitted ++ concat good ++ concat splits).
Proof.
  induction splits as [|s splits IH]; intros fc good emitted Hrec Hfc.
  - cbn [Splitter.split_loop concat]. rewrite app_nil_r. now apply flush_covers.
  - cbn [Splitter.split_loop].
    destruct (len s <? chunk_size).
    + destruct (IH fc (good ++ [s]) emitted Hrec Hfc) as (out & -> & Hout).
      exists out. split; [reflexivity|].
      rewrite concat_app in Hout. cbn [concat] in Hout |- *.
      rewrite app_nil_r, <- app_assoc in Hout. exact Hout.
    + destruct (flush_covers fc good emitted Hfc) as (fc1 & -> & Hfc1).
      cbn [mbind result_bind].
      assert (Hnext : forall fc2, covered fc2 ((emitted ++ concat good) ++ s) ->
        exists out,
          Splitter.split_loop chunk_size chunk_overlap recurse splits fc2 [] = Ok out
          /\ covered out (emitted ++ concat good ++ concat (s :: splits))).
      { intros fc2 H2. destruct (IH fc2 [] _ Hrec H2) as (out & -> & Hout).
        exists out. split; [reflexivity|]. cbn [concat app] in Hout |- *.
        now rewrite <- !app_assoc in Hout. }
      destruct recurse as [f|].
      * destruct (Hrec s) as (other & -> & Hother). cbn [mbind result_bind].
        apply Hnext. now apply covers_app.
      * cbn [mbind result_bind]. apply Hnext.
        apply covers_app; [exact Hfc1|]. now apply covers_whole.
Qed.

End MergeCovers.

(** ** The pieces of a text *)

Lemma startswith_spec p t : startswith p t = true -> t = p ++ drop (length p) t.
Proof.
  revert t. induction p as [|a p IH]; intros [|b t] H; try discriminate; try reflexivity.
  cbn in H. apply andb_prop in H as [Hab H].
  apply bool_decide_eq_true in Hab as ->. cbn. f_equal. now apply IH.
Qed.

Lemma re_split_go_spec sep t : forall skip cur,
  sep <> [] -> (skip <= length t)%nat ->
  exists p0 ps,
    Splitter.re_split_go sep skip cur t = p0 :: ps
    /\ p0 ++ concat (map (fun p => sep ++ p) ps) = reverse cur ++ drop skip t.
Proof.
  induction t as [|c t IH]; intros skip cur Hsep Hskip.
  - cbn in Hskip. assert (skip = 0%nat) as -> by lia.
    exists (reverse cur), []. split; reflexivity.
  - cbn [Splitter.re_split_go]. destruct skip as [|k].
    + destruct (startswith sep (c :: t)) eqn:Hm.
      * apply startswith_spec in Hm.
        assert (Hl : (Nat.pred (length sep) <= length t)%nat).
        { apply (f_equal length) in Hm. rewrite length_app in Hm. cbn in Hm. lia. }
        destruct (IH (Nat.pred (length sep)) [] Hsep Hl) as (q0 & qs & -> & E).
        exists (reverse cur), (q0 :: qs). split; [reflexivity|].
        cbn [map concat]. rewrite <- app_assoc, E. cbn [reverse rev_append app drop].
        f_equal. rewrite Hm at 1. f_equal.
        destruct sep as [|a sep]; [done|]. reflexivity.
      * destruct (IH 0%nat (c :: cur) Hsep ltac:(lia)) as (p0 & ps & -> & E).
        exists p0, ps. split; [reflexivity|].
        rewrite E, reverse_cons, <- app_assoc. reflexivity.
    + destruct (IH k cur Hsep ltac:(cbn in Hskip; lia)) as (p0 & ps & -> & E).
      exists p0, ps. split; [reflexivity|exact E].
Qed.

Lemma concat_filter_nonempty (l : list str) :
  concat (filter (fun s => s <> []) l) = concat l.
Proof.
  induction l as [|s l IH]; [reflexivity|].
  destruct s as [|c s].
  - rewrite filter_cons_False by (intros H; now apply H). exact IH.
  - rewrite filter_cons_True by done. cbn [concat]. now rewrite IH.
Qed.

Lemma concat_split_text_with_regex text separator :
  concat (Splitter._split_text_with_regex text separator) = text.
Proof.
  unfold Splitter._split_text_with_regex. rewrite concat_filter_nonempty.
  destruct separator as [|a sep].
  - induction text as [|c text IH]; [reflexivity|]. cbn. now rewrite IH.
  - unfold Splitter.re_split.
    destruct (re_split_go_spec (a :: sep) text 0 []) as (p0 & ps & -> & E); [done|lia|].
    cbn [concat]. exact E.
Qed.

(** Whatever the separators, the chunks cover the text. *)
Lemma _split_text_covers chunk_size chunk_overlap separators :
  0 <= chunk_overlap -> separators <> [] ->
  forall text, exists out,
    Splitter._split_text chunk_size chunk_overlap separators text = Ok out
    /\ covers chunk_overlap out text.
Proof.
  intros Hov Hne.
  induction separators as [|_s rest IH]; [done|].
  intros text. cbn [Splitter._split_text].
  assert (Hloop : forall recurse sep,
    recurse_covers chunk_overlap recurse ->
    exists out,
      Splitter.split_loop chunk_size chunk_overlap recurse
        (Splitter._split_text_with_regex text sep) [] [] = Ok out
      /\ covers chunk_overlap out text).
  { intros recurse sep Hrec.
    destruct (split_loop_covers chunk_size chunk_overlap Hov recurse
                (Splitter._split_text_with_regex text sep) [] [] [] Hrec)
      as (out & E & H); [constructor; constructor|].
    exists out. split; [exact E|].
    cbn [concat app] in H. now rewrite concat_split_text_with_regex in H. }
  destruct rest as [|s' rest'].
  - destruct _s as [|c _s]; [now apply Hloop|].
    destruct (contains (c :: _s) text); now apply Hloop.
  - specialize (IH ltac:(done)).
    destruct _s as [|c _s]; [now apply Hloop|].
    destruct (contains (c :: _s) text); [|apply IH].
    apply Hloop. exact IH.
Qed.


Lemma chunk_documents_covers doc tr :
  exists chunks,
    chunk_documents [doc] tr = (Ok chunks, tr ++ [EPrint (LogCreated (len chunks))])
    /\ covers 200 (map page_content chunks) (page_content doc).
Proof.
  rewrite chunk_documents_run. cbn [split_documents]. unfold Splitter.split_text.
  destruct (_split_text_covers 4000 200 Splitter.separators ltac:(lia) ltac:(done)
              (page_content doc)) as (out & -> & H).
  cbn [mbind result_bind]. eexists. split; [reflexivity|].
  rewrite app_nil_r, List.map_map. cbn [page_content]. now rewrite List.map_id.
Qed.

(** The splitter on a short sentence, with a chunk size of 10 and an
    overlap of 3: cuts fall on spaces, chunks are stripped, and a piece
    is carried over only if it fits in the overlap. *)
Example split_text_words :
  Splitter.split_text 10 3 (py "hello world foo bar baz qux")
  = Ok [py "hello"; py "world foo"; py "bar baz"; py "qux"].
Proof. reflexivity. Qed.

(** With no separator in the text, the cuts are hard. *)
Example split_text_letters :
  Splitter.split_text 10 3 (py "abcdefghijklmnopqrstuvwxyz")
  = Ok [py "abcdefghij"; py "hijklmnopq"; py "opqrstuvwx"; py "vwxyz"].
Proof. reflexivity. Qed.

(** ** The download loop *)

Lemma download_loop_pending n rest tr :
  download_loop (repeat (Ok false) n ++ rest) tr
  = download_loop rest (tr ++ repeat (ECall NextChunk None) n).
Proof.
  revert tr. induction n as [|n IH]; intros tr; cbn [repeat app].
  - now rewrite app_nil_r.
  - cbn [download_loop]. rewrite bind_run. cbn [call].
    rewrite IH. now rewrite <- app_assoc.
Qed.

Lemma download_loop_all_called answers :
  emits (download_loop answers)
    (fun _ new => Forall (fun ev => exists o, ev = ECall NextChunk o) new).
Proof.
  induction answers as [|r answers IH]; intros tr; cbn [download_loop].
  - eexists _, _. split; [reflexivity|]. repeat constructor. eauto.
  - rewrite bind_run. unfold call.
    destruct r as [[|]|e].
    + eexists _, _. split; [reflexivity|]. repeat constructor. eauto.
    + destruct (IH (tr ++ [ECall NextChunk None])) as (r & new & -> & H).
      exists r, (ECall NextChunk None :: new). split; [now rewrite <- app_assoc|].
      constructor; eauto.
    + eexists _, _. split; [reflexivity|]. repeat constructor. eauto.
Qed.

(** ** Counting calls *)

Lemma calls_app p l k : calls p (l ++ k) = (calls p l + calls p k)%nat.
Proof.
  induction l as [|[c o|line] l IH]; cbn [app calls]; [reflexivity|rewrite IH; lia|exact IH].
Qed.

Lemma at_most_weaken {A} p n n' (m : M A) :
  (n <= n')%nat -> at_most p n m -> at_most p n' m.
Proof.
  intros Hn Hm. eapply emits_weaken; [exact Hm|]. cbn. intros; lia.
Qed.

Lemma at_most_bind {A B} p n k (m : M A) (f : A -> M B) :
  at_most p n m -> (forall a, at_most p k (f a)) -> at_most p (n + k) (m ≫= f).
Proof.
  intros Hm Hf. eapply emits_weaken; [apply (emits_bind _ _ _ _ Hm Hf)|].
  intros r new [(e & -> & H)|(a & n1 & n2 & -> & H1 & H2)]; cbn in *; [lia|].
  rewrite calls_app. lia.
Qed.

Lemma at_most_ret {A} p (a : A) : at_most p 0 (mret a).
Proof. apply emits_ret. reflexivity. Qed.

Lemma at_most_lift {A} p (r : result A) : at_most p 0 (lift r).
Proof. apply emits_lift. reflexivity. Qed.

Lemma at_most_print {console : Console} p line : at_most p 0 (print line).
Proof. apply emits_print; reflexivity. Qed.

Lemma at_most_call_other {A} p c (r : result A) : p c = false -> at_most p 0 (call c r).
Proof. intros H. apply emits_call; intros; cbn; rewrite H; lia. Qed.

Lemma at_most_call {A} p c (r : result A) : at_most p 1 (call c r).
Proof. apply emits_call; intros; cbn; destruct (p c); lia. Qed.

Lemma at_most_download_loop p answers :
  p NextChunk = false -> at_most p 0 (download_loop answers).
Proof.
  intros Hp. eapply emits_weaken; [apply download_loop_all_called|].
  intros r new H. cbn. induction H as [|ev new (o & ->) _ IH]; cbn [calls]; [lia|].
  rewrite Hp. exact IH.
Qed.

(** Count the calls of a sequence of steps. *)
Ltac count_calls :=
  repeat first
    [ apply at_most_ret
    | apply at_most_lift
    | apply at_most_print
    | apply at_most_download_loop; reflexivity
    | apply at_most_call_other; reflexivity
    | apply at_most_call
    | eapply at_most_bind; [|intro] ].

Lemma at_most_process {console : Console} p n w file_id :
  at_most p n (pipeline w file_id) -> at_most p n (process_drive_file w file_id).
Proof.
  intros H tr. rewrite process_try.
  destruct (H tr) as ([[name chunks]|e] & new & -> & Hn).
  - eexists _, new. split; [reflexivity|exact Hn].
  - rewrite except_clause_run. destruct (stdout (LogError e)) as [[]|e'].
    + eexists _, (new ++ [EPrint (LogError e)]). split; [now rewrite app_assoc|].
      cbn. rewrite calls_app. cbn. lia.
    + eexists _, new. split; [reflexivity|exact Hn].
Qed.

Lemma process_calls {console : Console} w file_id :
  at_most is_build 2 (process_drive_file w file_id)
  /\ at_most is_files_get 1 (process_drive_file w file_id)
  /\ at_most is_get_media 1 (process_drive_file w file_id)
  /\ at_most is_open_write 1 (process_drive_file w file_id)
  /\ at_most is_load 1 (process_drive_file w file_id)
  /\ at_most is_from_documents 1 (process_drive_file w file_id).
Proof.
  repeat split; apply at_most_process;
    unfold pipeline, download_file_from_drive, load_document, chunk_documents,
      embed_and_store, authenticate_drive;
    (eapply at_most_weaken; [|solve [count_calls]]); cbn; lia.
Qed.

(** ** The handler, stage by stage *)

(** The outcome of a request is decided by the first stage that raises:
    the [except] clause runs on its exception and on the trace it left. *)
Lemma process_stages {console : Console} w file_id tr :
  process_drive_file w file_id tr
  = match fetch w file_id tr with
    | (Raise e, tr1) => except_clause e tr1
    | (Ok (file_name, file_path), tr1) =>
        match load_document w file_path tr1 with
        | (Raise e, tr2) => except_clause e tr2
        | (Ok docs, tr2) =>
            match chunk_documents docs tr2 with
            | (Raise e, tr3) => except_clause e tr3
            | (Ok chunks, tr3) =>
                match embed_and_store w chunks tr3 with
                | (Raise e, tr4) => except_clause e tr4
                | (Ok _, tr4) => (Ok (success_response file_name (len chunks)), tr4)
                end
            end
        end
    end.
Proof.
  rewrite process_try, pipeline_fetch, bind_run.
  destruct (fetch w file_id tr) as [[[name path]|e] tr1]; [|reflexivity].
  rewrite bind_run. destruct (load_document w path tr1) as [[docs|e] tr2]; [|reflexivity].
  rewrite bind_run. destruct (chunk_documents docs tr2) as [[chunks|e] tr3]; [|reflexivity].
  rewrite bind_run. destruct (embed_and_store w chunks tr3) as [[b|e] tr4]; reflexivity.
Qed.

(** The metadata request raised. *)
Lemma fetch_unresolved {console : Console} w file_id tr e :
  drive_build w = Ok tt -> files_get w file_id = Raise e ->
  fetch w file_id tr
  = (Raise e, tr ++ [ECall BuildDrive None; ECall (FilesGet file_id) (Some e)]).
Proof.
  intros Hb Hg. unfold fetch, authenticate_drive.
  rewrite bind_run. unfold call at 1. rewrite Hb.
  rewrite bind_run. unfold call at 1. rewrite Hg.
  now rewrite <- app_assoc.
Qed.

(** The metadata has no [name], or a [name] and no [mimeType]. *)
Lemma fetch_missing_key {console : Console} w file_id tr md key :
  drive_build w = Ok tt -> files_get w file_id = Ok md ->
  (key = py "name" /\ md !! py "name" = None)
  \/ (key = py "mimeType" /\ is_Some (md !! py "name") /\ md !! py "mimeType" = None) ->
  fetch w file_id tr
  = (Raise (KeyError key), tr ++ [ECall BuildDrive None; ECall (FilesGet file_id) None]).
Proof.
  intros Hb Hg Hkey. unfold fetch, authenticate_drive.
  rewrite bind_run. unfold call at 1. rewrite Hb.
  rewrite bind_run. unfold call at 1. rewrite Hg.
  rewrite bind_run. unfold lift at 1, getitem at 1.
  destruct Hkey as [(-> & Hn)|(-> & (name & Hn) & Hm)]; rewrite Hn.
  - now rewrite <- app_assoc.
  - rewrite bind_run. unfold lift at 1, getitem at 1. rewrite Hm.
    now rewrite <- app_assoc.
Qed.

(** No loader for the extension: [load_document] raises before any
    call. *)
Lemma load_document_no_loader {console : Console} w file_path tr e :
  select_loader file_path = Raise e -> load_document w file_path tr = (Raise e, tr).
Proof.
  intros H. unfold load_document. rewrite bind_run. unfold lift. now rewrite H.
Qed.

(** * The claims *)

(** Decide a closed decidable proposition by evaluation. *)
Ltac by_evaluation :=
  match goal with
  | |- ~ _ =>
      let H := fresh in let Hb := fresh in
      intros H; pose proof (bool_decide_eq_true_2 _ H) as Hb;
      vm_compute in Hb; discriminate
  | |- ?P => apply (bool_decide_eq_true_1 P); vm_compute; reflexivity
  end.

(** C1, as the claim states it, fails: three runs of 3000 letters
    separated by spaces are cut at the spaces into three chunks, and the
    second chunk, which is not the last, does not start with the last 200
    characters of the first. *)
Lemma chunk_overlap_not_exact :
  let path := py "/tmp/runs.txt" in
  chunk_documents [text_doc path three_runs] []
  = (Ok [text_doc path (repeat "a"%char 3000);
         text_doc path (repeat "b"%char 3000);
         text_doc path (repeat "c"%char 3000)],
     [EPrint (LogCreated 3)])
  /\ ~ overlap_by 200 (repeat "a"%char 3000) (repeat "b"%char 3000).
Proof.
  split; [vm_compute; reflexivity|by_evaluation].
Qed.

(** C1, amended: [chunk_documents] always returns, and every chunk has at
    most 4000 characters. The chunks of a document cover its text: each
    chunk is its new region preceded by at most 200 characters, and the
    new regions, in order and with nothing but white space around them,
    make up the text. For a document whose text has no white-space
    character (so that every cut is a hard character cut), each chunk
    starts with the last 200 characters of the chunk before it. *)
Theorem chunks_fit_and_hard_cuts_overlap :
  (forall docs tr, exists chunks,
     chunk_documents docs tr = (Ok chunks, tr ++ [EPrint (LogCreated (len chunks))])
     /\ Forall (fun c => len (page_content c) <= 4000) chunks)
  /\ (forall doc tr, exists chunks,
        chunk_documents [doc] tr = (Ok chunks, tr ++ [EPrint (LogCreated (len chunks))])
        /\ covers 200 (map page_content chunks) (page_content doc))
  /\ (forall doc tr, no_space (page_content doc) ->
      exists chunks,
        chunk_documents [doc] tr = (Ok chunks, tr ++ [EPrint (LogCreated (len chunks))])
        /\ forall i c1 c2,
             chunks !! i = Some c1 -> chunks !! S i = Some c2 ->
             overlap_by 200 (page_content c1) (page_content c2)).
Proof.
  split; [exact chunk_documents_fit|]. split; [exact chunk_documents_covers|].
  intros doc tr Hns. eexists. rewrite chunk_documents_run.
  rewrite (split_documents_no_space doc Hns). split; [reflexivity|].
  intros i c1 c2 H1 H2.
  apply lookup_map_document in H1, H2.
  apply (windows_overlap 4000 200) with (t := page_content doc) (i := i);
    (lia || assumption).
Qed.

Lemma chunks_fit_and_hard_cuts_overlap_witness :
  no_space nine_thousand_letters
  /\ exists chunks,
    chunk_documents [text_doc (py "/tmp/x.txt") nine_thousand_letters] []
    = (Ok chunks, [] ++ [EPrint (LogCreated (len chunks))])
    /\ forall i c1 c2,
         chunks !! i = Some c1 -> chunks !! S i = Some c2 ->
         overlap_by 200 (page_content c1) (page_content c2).
Proof.
  assert (H : no_space nine_thousand_letters) by by_evaluation.
  split; [exact H|].
  exact (proj2 (proj2 chunks_fit_and_hard_cuts_overlap)
           (text_doc (py "/tmp/x.txt") nine_thousand_letters) [] H).
Defined.

(** C2, as the claim states it, fails: the text [" a"] yields the single
    chunk ["a"]; the leading space is in no chunk, so no way of dropping
    overlaps gives the text back. *)
Lemma chunk_round_trip_fails :
  let path := py "/tmp/a.txt" in
  chunk_documents [text_doc path (py " a")] []
  = (Ok [text_doc path (py "a")], [EPrint (LogCreated 1)])
  /\ forall k, stitch k [py "a"] <> py " a".
Proof.
  split; [vm_compute; reflexivity|]. intros k. discriminate.
Qed.

(** C2, amended: the chunks of a document cover its text: the text is,
    in order, the new regions of the chunks (each chunk without at most
    200 characters at its start), with nothing but white space before,
    between and after them. For a document whose text has no white-space
    character, the first chunk followed by every later chunk without its
    first 200 characters is the text. *)
Theorem hard_cuts_round_trip doc tr :
  (exists chunks,
     chunk_documents [doc] tr = (Ok chunks, tr ++ [EPrint (LogCreated (len chunks))])
     /\ covers 200 (map page_content chunks) (page_content doc))
  /\ (no_space (page_content doc) ->
      exists chunks,
        chunk_documents [doc] tr = (Ok chunks, tr ++ [EPrint (LogCreated (len chunks))])
        /\ stitch 200 (map page_content chunks) = page_content doc).
Proof.
  split; [apply chunk_documents_covers|].
  intros Hns. eexists. rewrite chunk_documents_run.
  rewrite (split_documents_no_space doc Hns). split; [reflexivity|].
  rewrite List.map_map. cbn [page_content]. rewrite List.map_id.
  apply (windows_stitch 4000 200); lia.
Qed.

Lemma hard_cuts_round_trip_witness :
  no_space nine_thousand_letters
  /\ exists chunks,
    chunk_documents [text_doc (py "/tmp/x.txt") nine_thousand_letters] []
    = (Ok chunks, [] ++ [EPrint (LogCreated (len chunks))])
    /\ stitch 200 (map page_content chunks) = nine_thousand_letters.
Proof.
  assert (H : no_space nine_thousand_letters) by by_evaluation.
  split; [exact H|].
  exact (proj2 (hard_cuts_round_trip (text_doc (py "/tmp/x.txt") nine_thousand_letters) []) H).
Defined.

(** C3, as the claim states it, fails: with two chunks the call returns
    [True], which as a number is 1, not 2. *)
Lemma embed_and_store_returns_true_not_count :
  let chunks := [text_doc (py "/tmp/a.txt") (py "one"); text_doc (py "/tmp/a.txt") (py "two")] in
  exists tr,
    embed_and_store (sample_world (py "a.txt") []) chunks [] = (Ok true, tr)
    /\ Z.b2z true <> len chunks.
Proof. eexists. split; [reflexivity|discriminate]. Qed.

(** C3, amended: when the vector store accepts the chunks,
    [embed_and_store] returns [True]; it makes one [from_documents] call,
    which is handed all the chunks together with the model, the URL and
    the collection name, and it prints the number of chunks. *)
Theorem embed_and_store_stores_all w chunks tr :
  from_documents w chunks = Ok tt ->
  embed_and_store w chunks tr
  = (Ok true,
     tr ++ [ECall (FromDocuments chunks OLLAMA_MODEL QDRANT_URL COLLECTION_NAME) None;
            EPrint (LogStored (len chunks) COLLECTION_NAME)]).
Proof. intros H. now rewrite embed_and_store_run, H. Qed.

Lemma embed_and_store_stores_all_witness :
  let chunks := [text_doc (py "/tmp/a.txt") (py "one"); text_doc (py "/tmp/a.txt") (py "two")] in
  from_documents (sample_world (py "a.txt") []) chunks = Ok tt
  /\ embed_and_store (sample_world (py "a.txt") []) chunks []
  = (Ok true,
     [] ++ [ECall (FromDocuments chunks OLLAMA_MODEL QDRANT_URL COLLECTION_NAME) None;
            EPrint (LogStored (len chunks) COLLECTION_NAME)]).
Proof.
  intros chunks. split; [reflexivity|].
  apply (embed_and_store_stores_all (sample_world (py "a.txt") []) chunks []).
  reflexivity.
Defined.







(** C6: for a path whose lower-cased extension is none of [.pdf], [.txt]
    and [.csv], [load_document] raises [ValueError] with the message
    [Unsupported file format: <ext>] without calling a loader, and a
    request that downloaded such a file is answered with the error object
    carrying that message. *)
Theorem unsupported_format_error w file_path :
  let ext := lower (splitext file_path).2 in
  let e := ValueError (py "Unsupported file format: " ++ ext) in
  ext <> py ".pdf" -> ext <> py ".txt" -> ext <> py ".csv" ->
  (forall tr, load_document w file_path tr = (Raise e, tr))
  /\ (forall file_id file_name tr tr1,
        fetch w file_id tr = (Ok (file_name, file_path), tr1) ->
        process_drive_file w file_id tr
        = (Ok {[ py "error" := JStr (py "Unsupported file format: " ++ ext) ]},
           tr1 ++ [EPrint (LogError e)])).
Proof.
  intros ext e H1 H2 H3.
  assert (Hload : forall tr, load_document w file_path tr = (Raise e, tr)).
  { intros tr. rewrite load_document_run.
    now rewrite (select_loader_unsupported file_path H1 H2 H3). }
  split; [exact Hload|].
  intros file_id file_name tr tr1 Hfetch.
  rewrite process_run, (process_after_fetch _ _ _ _ _ _ Hfetch), bind_run, Hload.
  reflexivity.
Qed.

Lemma unsupported_format_error_witness :
  let w := sample_world (py "report.docx") [] in
  let e := ValueError (py "Unsupported file format: .docx") in
  lower (splitext (py "/tmp/report.docx")).2 = py ".docx"
  /\ exists tr1,
       fetch w (py "f1") [] = (Ok (py "report.docx", py "/tmp/report.docx"), tr1)
       /\ process_drive_file w (py "f1") []
          = (Ok {[ py "error" := JStr (py "Unsupported file format: .docx") ]},
             tr1 ++ [EPrint (LogError e)]).
Proof.
  intros w e. split; [reflexivity|]. eexists. split; [reflexivity|].
  apply (proj2 (unsupported_format_error w (py "/tmp/report.docx")
                  ltac:(discriminate) ltac:(discriminate) ltac:(discriminate))
           (py "f1") (py "report.docx") []).
  reflexivity.
Defined.

(** C7, as the claim states it, fails: an overlap equal to the chunk
    size is accepted, and chunking goes through. *)
Lemma overlap_equal_to_size_accepted :
  Splitter.check_config 4000 4000 = Ok tt
  /\ split_documents 4000 4000 [text_doc (py "/tmp/a.txt") (py "hello world")]
     = Ok [text_doc (py "/tmp/a.txt") (py "hello world")].
Proof. split; vm_compute; reflexivity. Qed.

(** C7, amended: for a positive chunk size and a non-negative overlap,
    building the splitter raises (a [ValueError]) exactly when the
    overlap is greater than the chunk size. [chunk_documents] builds it
    with 4000 and 200, which is accepted, and never raises. *)
Theorem config_rejected_iff_overlap_greater chunk_size chunk_overlap :
  0 < chunk_size -> 0 <= chunk_overlap ->
  ((exists msg, Splitter.check_config chunk_size chunk_overlap = Raise (ValueError msg))
   <-> chunk_size < chunk_overlap)
  /\ (Splitter.check_config chunk_size chunk_overlap = Ok tt
      <-> chunk_overlap <= chunk_size)
  /\ Splitter.check_config 4000 200 = Ok tt
  /\ forall docs tr, is_ok (chunk_documents docs tr).1 = true.
Proof.
  intros Hs Ho. unfold Splitter.check_config.
  destruct (chunk_size <=? 0) eqn:E1; [zbool; lia|].
  destruct (chunk_overlap <? 0) eqn:E2; [zbool; lia|].
  destruct (chunk_overlap >? chunk_size) eqn:E3; zbool.
  - split; [split; [lia|eauto]|]. split; [split; [discriminate|lia]|].
    split; [reflexivity|]. intros docs tr.
    destruct (chunk_documents_fit docs tr) as (chunks & -> & _).
    reflexivity.
  - split; [split; [intros [msg ?]; discriminate|lia]|]. split; [split; [lia|reflexivity]|].
    split; [reflexivity|]. intros docs tr.
    destruct (chunk_documents_fit docs tr) as (chunks & -> & _).
    reflexivity.
Qed.

Lemma config_rejected_iff_overlap_greater_witness :
  0 < 4000 /\ 0 <= 4001
  /\ exists msg, Splitter.check_config 4000 4001 = Raise (ValueError msg).
Proof.
  assert (H1 : 0 < 4000) by lia. assert (H2 : 0 <= 4001) by lia.
  split; [exact H1|]. split; [exact H2|].
  apply (proj1 (config_rejected_iff_overlap_greater 4000 4001 H1 H2)). lia.
Defined.

(** C8, as the claim states it, fails: a text of 9000 characters made of
    three runs of letters separated by spaces is cut at the spaces, into
    chunks of 3000, 3000 and 2998 characters. *)
Lemma nine_thousand_not_4000_4000_1400 :
  let w := sample_world (py "notes.txt") [text_doc (py "/tmp/notes.txt") nine_thousand] in
  len nine_thousand = 9000
  /\ exists chunks tr,
       pipeline w (py "f1") [] = (Ok (py "notes.txt", chunks), tr)
       /\ map (fun c => len (page_content c)) chunks = [3000; 3000; 2998].
Proof.
  intros w. split; [vm_compute; reflexivity|].
  eexists _, _. split; vm_compute; reflexivity.
Qed.

(** C8, amended: when the downloaded file is a [.txt] file that the text
    loader reads as one document of 9000 characters none of which is
    white space, and the vector store accepts the chunks, the pipeline
    produces three chunks of 4000, 4000 and 1400 characters, each
    starting with the last 200 characters of the one before, and the
    response is the success object with the file name and 3. *)
Theorem nine_thousand_letters_three_chunks w file_id tr file_name file_path tr1 doc :
  fetch w file_id tr = (Ok (file_name, file_path), tr1) ->
  lower (splitext file_path).2 = py ".txt" ->
  loader_load w (TextLoader file_path (py "utf-8") true) = Ok [doc] ->
  len (page_content doc) = 9000 ->
  no_space (page_content doc) ->
  (forall chunks, from_documents w chunks = Ok tt) ->
  exists chunks tr',
    pipeline w file_id tr = (Ok (file_name, chunks), tr')
    /\ map (fun c => len (page_content c)) chunks = [4000; 4000; 1400]
    /\ (forall i c1 c2,
          chunks !! i = Some c1 -> chunks !! S i = Some c2 ->
          overlap_by 200 (page_content c1) (page_content c2))
    /\ process_drive_file w file_id tr = (Ok (success_response file_name 3), tr').
Proof.
  intros Hfetch Hext Hload Hlen Hns Hstore.
  assert (Hsel : select_loader file_path = Ok (TextLoader file_path (py "utf-8") true)).
  { unfold select_loader. rewrite Hext. reflexivity. }
  set (t := page_content doc) in *.
  set (chunks := map (fun c => mkDocument c (metadata doc)) (windows 4000 200 t)).
  assert (Hpipe : exists tr',
    pipeline w file_id tr = (Ok (file_name, chunks), tr')).
  { rewrite (process_after_fetch _ _ _ _ _ _ Hfetch), bind_run.
    rewrite load_document_run, Hsel, Hload.
    rewrite bind_run, chunk_documents_run, (split_documents_no_space doc Hns).
    fold t. fold chunks.
    rewrite bind_run, embed_and_store_run, Hstore.
    eexists. reflexivity. }
  destruct Hpipe as (tr' & Hpipe). exists chunks, tr'.
  assert (Hw : windows 4000 200 t
               = [take (Z.to_nat 4000) t;
                  take (Z.to_nat 4000) (drop (Z.to_nat 3800) t);
                  drop (Z.to_nat 7600) t]) by now apply windows_9000.
  split; [exact Hpipe|]. split; [|split].
  - unfold chunks. rewrite Hw. cbn [map page_content].
    rewrite !len_take, !len_drop, Hlen. repeat f_equal; lia.
  - intros i c1 c2 H1 H2. unfold chunks in H1, H2.
    apply lookup_map_document in H1, H2.
    apply (windows_overlap 4000 200) with (t := t) (i := i); (lia || assumption).
  - rewrite process_run, Hpipe. unfold chunks. rewrite Hw. reflexivity.
Qed.

Lemma nine_thousand_letters_three_chunks_witness :
  let doc := text_doc (py "/tmp/notes.txt") nine_thousand_letters in
  let w := sample_world (py "notes.txt") [doc] in
  (len (page_content doc) = 9000 /\ no_space (page_content doc))
  /\ exists chunks tr',
       pipeline w (py "f1") [] = (Ok (py "notes.txt", chunks), tr')
       /\ map (fun c => len (page_content c)) chunks = [4000; 4000; 1400]
       /\ (forall i c1 c2,
             chunks !! i = Some c1 -> chunks !! S i = Some c2 ->
             overlap_by 200 (page_content c1) (page_content c2))
       /\ process_drive_file w (py "f1") [] = (Ok (success_response (py "notes.txt") 3), tr').
Proof.
  intros doc w.
  assert (Hlen : len (page_content doc) = 9000) by (vm_compute; reflexivity).
  assert (Hns : no_space (page_content doc)) by by_evaluation.
  split; [split; [exact Hlen|exact Hns]|].
  eapply (nine_thousand_letters_three_chunks w (py "f1") [] (py "notes.txt")
            (py "/tmp/notes.txt") _ doc).
  - reflexivity.
  - reflexivity.
  - reflexivity.
  - exact Hlen.
  - exact Hns.
  - reflexivity.
Defined.

(** C9: [load_document] chooses the loader by the lower-cased extension
    alone: [.pdf], [.txt] and [.csv] in any letter case select the PDF,
    text and CSV loader, which is handed the path as it is; any other
    extension raises with the lower-cased extension in the message; and a
    path is routed like its lower-cased form. *)
Theorem extension_dispatch_case_insensitive file_path :
  let ext := lower (splitext file_path).2 in
  (ext = py ".pdf" -> select_loader file_path = Ok (PyPDFLoader file_path))
  /\ (ext = py ".txt" ->
      select_loader file_path = Ok (TextLoader file_path (py "utf-8") true))
  /\ (ext = py ".csv" -> select_loader file_path = Ok (CSVLoader file_path))
  /\ (ext <> py ".pdf" -> ext <> py ".txt" -> ext <> py ".csv" ->
      select_loader file_path
      = Raise (ValueError (py "Unsupported file format: " ++ ext)))
  /\ lower ext = ext
  /\ route (lower file_path) = route file_path
  /\ forall w tr,
       load_document w file_path tr
       = match select_loader file_path with
         | Raise e => (Raise e, tr)
         | Ok loader =>
             match loader_load w loader with
             | Ok docs =>
                 (Ok docs,
                  tr ++ [ECall (Load loader) None; EPrint (LogLoaded (len docs) file_path)])
             | Raise e => (Raise e, tr ++ [ECall (Load loader) (Some e)])
             end
         end.
Proof.
  intros ext. repeat split.
  - intros H. unfold select_loader. fold ext. now rewrite H.
  - intros H. unfold select_loader. fold ext. now rewrite H.
  - intros H. unfold select_loader. fold ext. now rewrite H.
  - apply select_loader_unsupported.
  - apply lower_idem.
  - apply route_lower.
  - intros w tr. apply load_document_run.
Qed.

Lemma extension_dispatch_case_insensitive_witness :
  (lower (splitext (py "/tmp/Report.PDF")).2 = py ".pdf"
   /\ select_loader (py "/tmp/Report.PDF") = Ok (PyPDFLoader (py "/tmp/Report.PDF")))
  /\ (lower (splitext (py "/tmp/Notes.Txt")).2 = py ".txt"
      /\ select_loader (py "/tmp/Notes.Txt")
         = Ok (TextLoader (py "/tmp/Notes.Txt") (py "utf-8") true))
  /\ (lower (splitext (py "/tmp/rows.CSV")).2 = py ".csv"
      /\ select_loader (py "/tmp/rows.CSV") = Ok (CSVLoader (py "/tmp/rows.CSV")))
  /\ (lower (splitext (py "/tmp/Memo.DOCX")).2 = py ".docx"
      /\ select_loader (py "/tmp/Memo.DOCX")
         = Raise (ValueError (py "Unsupported file format: .docx"))).
Proof.
  split; [split; [reflexivity|]|split; [split; [reflexivity|]|split; [split; [reflexivity|]|split; [reflexivity|]]]].
  - apply (proj1 (extension_dispatch_case_insensitive (py "/tmp/Report.PDF"))). reflexivity.
  - apply (proj1 (proj2 (extension_dispatch_case_insensitive (py "/tmp/Notes.Txt")))). reflexivity.
  - apply (proj1 (proj2 (proj2 (extension_dispatch_case_insensitive (py "/tmp/rows.CSV"))))).
    reflexivity.
  - apply (proj1 (proj2 (proj2 (proj2 (extension_dispatch_case_insensitive (py "/tmp/Memo.DOCX"))))));
      discriminate.
Defined.

(** C10: the download opens for writing exactly the path that
    [os.path.join] makes of the temp directory and the display name, and
    returns it; a display name that starts with a slash is that path by
    itself; with the temp directory [/tmp], the names [/etc/passwd] and
    [../etc/passwd] give paths outside [/tmp], while [notes.txt] gives a
    path inside it; and the handler passes the display name on as it is,
    so that a file named [/etc/passwd] is written to [/etc/passwd]. *)
Theorem download_path_not_sanitized :
  (forall w file_id file_name tr,
     drive_build w = Ok tt ->
     let file_path := os_path_join (gettempdir w) file_name in
     exists r tr',
       download_file_from_drive w file_id file_name (tr)
       = (r, tr ++ [ECall BuildDrive None; ECall (GetMedia file_id) None] ++ tr')
       /\ head tr' = Some (ECall (OpenWrite file_path)
                             match open_wb w file_path with
                             | Ok _ => None
                             | Raise e => Some e
                             end)
       /\ forall p, r = Ok p -> p = file_path)
  /\ (forall a b, startswith (py "/") b = true -> os_path_join a b = b)
  /\ os_path_join (py "/tmp") (py "/etc/passwd") = py "/etc/passwd"
  /\ ~ inside (py "/tmp") (os_path_join (py "/tmp") (py "/etc/passwd"))
  /\ os_path_join (py "/tmp") (py "../etc/passwd") = py "/tmp/../etc/passwd"
  /\ ~ inside (py "/tmp") (os_path_join (py "/tmp") (py "../etc/passwd"))
  /\ inside (py "/tmp") (os_path_join (py "/tmp") (py "notes.txt"))
  /\ (process_drive_file (sample_world (py "/etc/passwd") []) (py "f1") []).2 !! 5%nat
     = Some (ECall (OpenWrite (py "/etc/passwd")) None).
Proof.
  split; [|split; [exact os_path_join_absolute|]].
  - intros w file_id file_name tr Hb file_path.
    unfold download_file_from_drive, authenticate_drive. fold file_path.
    rewrite bind_run. unfold call at 1. rewrite Hb.
    rewrite bind_run. unfold call at 1.
    rewrite bind_run. unfold call at 1.
    destruct (open_wb w file_path) as [[]|e].
    + rewrite bind_run.
      destruct (within_download_loop (next_chunk w file_id)
                  (((tr ++ [ECall BuildDrive None]) ++ [ECall (GetMedia file_id) None])
                   ++ [ECall (OpenWrite file_path) None])) as (r & new & -> & _).
      destruct r as [[]|e].
      * eexists _, (ECall (OpenWrite file_path) None :: new ++ [EPrint (LogDownloaded file_path)]).
        split; [|split; [reflexivity|]].
        -- rewrite bind_run. unfold print, mret, M_ret.
           rewrite <- !app_assoc. reflexivity.
        -- intros p Hp. now injection Hp as <-.
      * eexists _, (ECall (OpenWrite file_path) None :: new).
        split; [|split; [reflexivity|]].
        -- rewrite <- !app_assoc. reflexivity.
        -- intros p Hp. discriminate.
    + eexists _, [ECall (OpenWrite file_path) (Some e)].
      split; [|split; [reflexivity|]].
      * rewrite <- !app_assoc. reflexivity.
      * intros p Hp. discriminate.
  - split; [reflexivity|]. split; [by_evaluation|]. split; [reflexivity|].
    split; [by_evaluation|]. split; [by_evaluation|]. reflexivity.
Qed.

Lemma download_path_not_sanitized_witness :
  let w := sample_world (py "/etc/passwd") [] in
  drive_build w = Ok tt
  /\ exists r tr',
       download_file_from_drive w (py "f1") (py "/etc/passwd") []
       = (r, [] ++ [ECall BuildDrive None; ECall (GetMedia (py "f1")) None] ++ tr')
       /\ head tr' = Some (ECall (OpenWrite (py "/etc/passwd")) None)
       /\ forall p, r = Ok p -> p = py "/etc/passwd".
Proof.
  intros w. split; [reflexivity|].
  exact (proj1 download_path_not_sanitized w (py "f1") (py "/etc/passwd") [] eq_refl).
Defined.

(** * Further properties *)

(** ** Chunks are trimmed pieces of the text *)

Lemma substring_refl t : substring t t.
Proof. exists [], []. now rewrite app_nil_r. Qed.

Lemma substring_trans a b c : substring a b -> substring b c -> substring a c.
Proof.
  intros (x & y & ->) (x' & y' & ->). exists (x' ++ x), (y ++ y').
  now rewrite <- !app_assoc.
Qed.

Lemma substring_app_l a b t : substring (a ++ b) t -> substring a t.
Proof. intros (x & y & ->). exists x, (b ++ y). now rewrite <- !app_assoc. Qed.

Lemma substring_app_r a b t : substring (a ++ b) t -> substring b t.
Proof. intros (x & y & ->). exists (x ++ a), y. now rewrite <- !app_assoc. Qed.

Lemma substring_strip t : substring (strip t) t.
Proof. destruct (strip_split t) as (g & g' & E & _). now exists g, g'. Qed.

Lemma substring_elem (s : str) (l : list str) : s ∈ l -> substring s (concat l).
Proof.
  intros H. apply list_elem_of_split in H as (l1 & l2 & ->).
  exists (concat l1), (concat l2). now rewrite concat_app.
Qed.

Lemma substring_suffix_concat (l k : list str) :
  l `suffix_of` k -> substring (concat l) (concat k).
Proof.
  intros (d & ->). exists (concat d), []. now rewrite concat_app, app_nil_r.
Qed.

Lemma lstrip_head t :
  lstrip t = [] \/ exists a, head (lstrip t) = Some a /\ isspace a = false.
Proof.
  induction t as [|c t IH]; cbn [lstrip]; [now left|].
  destruct (isspace c) eqn:E; [exact IH|]. right. exists c. auto.
Qed.

(** What [strip] leaves is empty or trimmed. *)
Lemma strip_trimmed t : strip t = [] \/ trimmed (strip t).
Proof.
  unfold strip. set (u := lstrip t).
  destruct (rstrip u) as [|b s] eqn:Er; [now left|]. right.
  destruct (rstrip_split u) as (g & Eu & Hg).
  split.
  - destruct (lstrip_head t) as [H|(a & Ha & Hsp)]; fold u in H || fold u in Ha.
    + rewrite H in Er. discriminate.
    + exists a. split; [|exact Hsp]. rewrite Eu, Er in Ha. exact Ha.
  - unfold rstrip in Er.
    destruct (lstrip_head (reverse u)) as [H|(z & Hz & Hsp)].
    + rewrite H in Er. discriminate.
    + exists z. split; [|exact Hsp].
      rewrite <- Er, last_reverse. exact Hz.
Qed.

Lemma trimmed_has_letter c : trimmed c -> ~ all_space c.
Proof.
  intros [(a & Ha & Hsp) _] H. destruct c as [|b c]; [discriminate|].
  cbn in Ha. injection Ha as ->. apply Forall_cons in H as [H _]. congruence.
Qed.

Lemma all_space_substring c t : all_space t -> substring c t -> all_space c.
Proof.
  intros H (a & b & ->). apply Forall_app in H as [_ H]. now apply Forall_app in H as [H _].
Qed.

Lemma cut_from_weaken s t c : substring s t -> cut_from s c -> cut_from t c.
Proof. intros Hs [Ht Hc]. split; [exact Ht|]. now apply (substring_trans _ s). Qed.

Section MergeCuts.

Variables chunk_size chunk_overlap : Z.
Hypothesis overlap_nonneg : 0 <= chunk_overlap.

Lemma join_docs_cut cur :
  Forall (cut_from (concat cur)) (option_list (Splitter._join_docs cur [])).
Proof.
  unfold Splitter._join_docs. rewrite join_nil.
  destruct (strip_trimmed (concat cur)) as [E|H].
  - rewrite E. constructor.
  - destruct (strip (concat cur)) as [|c s] eqn:E.
    + constructor.
    + cbn [option_list]. constructor; [|constructor].
      split; [exact H|]. rewrite <- E. apply substring_strip.
Qed.

Lemma merge_loop_cuts text splits : forall docs cur,
  Forall (cut_from text) docs -> substring (concat cur ++ concat splits) text ->
  exists out,
    Splitter.merge_loop chunk_size chunk_overlap [] splits docs cur (len (concat cur))
    = Ok out /\ Forall (cut_from text) out.
Proof.
  induction splits as [|d splits IH]; intros docs cur Hdocs Hsub.
  - eexists. split; [reflexivity|]. apply Forall_app_2; [exact Hdocs|].
    eapply Forall_impl; [apply join_docs_cut|]. intros c. apply cut_from_weaken.
    cbn [concat] in Hsub. now rewrite app_nil_r in Hsub.
  - cbn [Splitter.merge_loop].
    replace (len (@nil ascii)) with 0 by reflexivity.
    assert (Hstep : forall docs1 cur1,
      Forall (cut_from text) docs1 -> cur1 `suffix_of` cur ->
      exists out,
        Splitter.merge_loop chunk_size chunk_overlap [] splits docs1 (cur1 ++ [d])
          (len (concat cur1) + len d
           + (if 1 <? Z.of_nat (length (cur1 ++ [d])) then 0 else 0))
        = Ok out /\ Forall (cut_from text) out).
    { intros docs1 cur1 H1 (dropped & Hcur).
      replace (len (concat cur1) + len d + _) with (len (concat (cur1 ++ [d]))).
      2:{ rewrite concat_app, len_app. simpl. rewrite app_nil_r. destruct (1 <? _); lia. }
      apply IH; [exact H1|].
      rewrite concat_app. cbn [concat]. rewrite app_nil_r, <- app_assoc.
      subst cur. rewrite concat_app, <- app_assoc in Hsub.
      now apply substring_app_r in Hsub. }
    assert (Hcur : substring (concat cur) text) by now apply substring_app_l in Hsub.
    replace (if 0 <? Z.of_nat (length cur) then 0 else 0) with 0 by now destruct (0 <? _).
    destruct (len (concat cur) + len d + 0 >? chunk_size).
    + destruct cur as [|c0 cur0] eqn:Ecur.
      * cbn [mbind result_bind]. now apply (Hstep docs []).
      * rewrite <- Ecur in *.
        destruct (pop_front_spec chunk_size chunk_overlap overlap_nonneg (len d) cur
                    (len_nonneg d)) as (cur' & Hrun & Hsuf & _ & _).
        rewrite Hrun. cbn [mbind result_bind].
        apply Hstep; [|exact Hsuf].
        apply Forall_app_2; [exact Hdocs|].
        eapply Forall_impl; [apply join_docs_cut|]. intros c. now apply cut_from_weaken.
    + cbn [mbind result_bind]. now apply (Hstep docs cur).
Qed.

Lemma flush_cuts text fc good :
  Forall (cut_from text) fc -> substring (concat good) text ->
  exists out,
    Splitter.flush chunk_size chunk_overlap fc good = Ok out /\ Forall (cut_from text) out.
Proof.
  intros Hfc Hgood. destruct good as [|g good]; cbn [Splitter.flush]; [eauto|].
  unfold Splitter._merge_splits.
  destruct (merge_loop_cuts text (g :: good) [] []) as (m & Hm & Hout); [constructor|exact Hgood|].
  change (len (concat [])) with 0 in Hm. rewrite Hm. cbn [mbind result_bind].
  eexists. split; [reflexivity|]. apply Forall_app_2; [exact Hfc|exact Hout].
Qed.

Lemma split_loop_cuts text recurse splits : forall fc good,
  recurse_cuts chunk_size recurse splits ->
  Forall (cut_from text) fc -> substring (concat good ++ concat splits) text ->
  exists out,
    Splitter.split_loop chunk_size chunk_overlap recurse splits fc good = Ok out
    /\ Forall (cut_from text) out.
Proof.
  induction splits as [|s splits IH]; intros fc good Hrec Hfc Hsub.
  - cbn [Splitter.split_loop]. apply flush_cuts; [exact Hfc|].
    cbn [concat] in Hsub. now rewrite app_nil_r in Hsub.
  - cbn [Splitter.split_loop].
    assert (Hrec' : recurse_cuts chunk_size recurse splits).
    { destruct recurse; [exact Hrec|]. now apply Forall_cons in Hrec as [_ ?]. }
    destruct (len s <? chunk_size) eqn:E.
    + apply IH; [exact Hrec'|exact Hfc|].
      rewrite concat_app. cbn [concat] in *. now rewrite app_nil_r, <- app_assoc.
    + destruct (flush_cuts text fc good Hfc) as (fc1 & -> & Hfc1);
        [now apply substring_app_l in Hsub|].
      cbn [mbind result_bind].
      apply substring_app_r in Hsub. cbn [concat] in Hsub.
      destruct recurse as [f|].
      * destruct (Hrec s) as (other & -> & Hother). cbn [mbind result_bind].
        apply IH; [exact Hrec'| |now apply substring_app_r in Hsub].
        apply Forall_app_2; [exact Hfc1|].
        eapply Forall_impl; [exact Hother|]. intros c. apply cut_from_weaken.
        now apply substring_app_l in Hsub.
      * apply Forall_cons in Hrec as [Hs _]. zbool. lia.
Qed.

Lemma _split_text_cuts separators :
  last separators = Some [] -> 1 < chunk_size ->
  forall text, exists out,
    Splitter._split_text chunk_size chunk_overlap separators text = Ok out
    /\ Forall (cut_from text) out.
Proof.
  intros Hlast Hsize.
  induction separators as [|_s rest IH]; [discriminate|].
  intros text. cbn [Splitter._split_text].
  assert (Hloop : forall recurse sep,
    recurse_cuts chunk_size recurse (Splitter._split_text_with_regex text sep) ->
    exists out,
      Splitter.split_loop chunk_size chunk_overlap recurse
        (Splitter._split_text_with_regex text sep) [] [] = Ok out
      /\ Forall (cut_from text) out).
  { intros recurse sep Hrec. apply split_loop_cuts; [exact Hrec|constructor|].
    cbn [concat app]. rewrite concat_split_text_with_regex. apply substring_refl. }
  assert (Hchars : exists out,
    Splitter.split_loop chunk_size chunk_overlap None
      (Splitter._split_text_with_regex text []) [] [] = Ok out
    /\ Forall (cut_from text) out).
  { apply Hloop. cbn [recurse_cuts]. exact (chars_small chunk_size text Hsize). }
  destruct rest as [|s' rest'].
  - simpl in Hlast. injection Hlast as ->. exact Hchars.
  - specialize (IH Hlast).
    destruct _s as [|c _s]; [exact Hchars|].
    destruct (contains (c :: _s) text); [|apply IH].
    apply Hloop. exact IH.
Qed.

End MergeCuts.

(** ** Documents *)

Lemma split_text_cuts text :
  exists chunks,
    Splitter.split_text 4000 200 text = Ok chunks /\ Forall (cut_from text) chunks.
Proof.
  apply (_split_text_cuts 4000 200); [lia|reflexivity|lia].
Qed.

Lemma split_documents_app chunk_size chunk_overlap docs1 docs2 chunks1 chunks2 :
  split_documents chunk_size chunk_overlap docs1 = Ok chunks1 ->
  split_documents chunk_size chunk_overlap docs2 = Ok chunks2 ->
  split_documents chunk_size chunk_overlap (docs1 ++ docs2) = Ok (chunks1 ++ chunks2).
Proof.
  revert chunks1. induction docs1 as [|doc docs1 IH]; intros chunks1 H1 H2.
  - injection H1 as <-. exact H2.
  - cbn [app split_documents] in *.
    destruct (Splitter.split_text _ _ _) as [texts|e]; [|discriminate].
    cbn [mbind result_bind] in *.
    destruct (split_documents chunk_size chunk_overlap docs1) as [more|e]; [|discriminate].
    cbn [mbind result_bind] in H1. injection H1 as <-.
    rewrite (IH more eq_refl H2). cbn [mbind result_bind].
    now rewrite <- app_assoc.
Qed.

(** Every chunk carries the metadata of a document of the list and is
    cut from that document's text. *)
Lemma split_documents_cuts docs :
  exists chunks,
    split_documents 4000 200 docs = Ok chunks
    /\ Forall (fun c => exists d, d ∈ docs /\ metadata c = metadata d
                        /\ cut_from (page_content d) (page_content c)) chunks.
Proof.
  induction docs as [|doc docs (more & Hmore & Hcut)]; cbn [split_documents].
  - exists []. split; [reflexivity|constructor].
  - destruct (split_text_cuts (page_content doc)) as (texts & -> & Htexts).
    cbn [mbind result_bind]. rewrite Hmore. cbn [mbind result_bind].
    eexists. split; [reflexivity|]. apply Forall_app_2.
    + apply Forall_forall. intros c Hc.
      apply list_elem_of_fmap in Hc as (t & -> & Ht).
      exists doc. split; [left|]. split; [reflexivity|].
      rewrite Forall_forall in Htexts. now apply Htexts.
    + eapply Forall_impl; [exact Hcut|].
      intros c (d & Hd & Hm & Hc). exists d. split; [now right|auto].
Qed.

Lemma split_documents_blank docs :
  Forall (fun d => all_space (page_content d)) docs ->
  split_documents 4000 200 docs = Ok [].
Proof.
  intros Hblank. destruct (split_documents_cuts docs) as (chunks & -> & Hcut).
  destruct chunks as [|c chunks]; [reflexivity|].
  apply Forall_cons in Hcut as [(d & Hd & _ & Htrim & Hsub) _].
  rewrite Forall_forall in Hblank.
  destruct (trimmed_has_letter _ Htrim).
  exact (all_space_substring _ _ (Hblank d Hd) Hsub).
Qed.

(** ** A text shorter than the chunk size *)

Section ShortText.

Variables chunk_size chunk_overlap : Z.

Lemma elem_len_le (s : str) (l : list str) : s ∈ l -> len s <= len (concat l).
Proof.
  intros H. apply list_elem_of_split in H as (l1 & l2 & ->).
  rewrite concat_app. cbn [concat]. rewrite !len_app.
  pose proof (len_nonneg (concat l1)). pose proof (len_nonneg (concat l2)). lia.
Qed.

Lemma split_loop_all_short recurse splits : forall fc good,
  Forall (fun s => len s < chunk_size) splits ->
  Splitter.split_loop chunk_size chunk_overlap recurse splits fc good
  = Splitter.flush chunk_size chunk_overlap fc (good ++ splits).
Proof.
  induction splits as [|s splits IH]; intros fc good H.
  - cbn [Splitter.split_loop]. now rewrite app_nil_r.
  - apply Forall_cons in H as [Hs H]. cbn [Splitter.split_loop].
    apply Z.ltb_lt in Hs. rewrite Hs, IH by exact H. now rewrite <- app_assoc.
Qed.

Lemma merge_loop_no_overflow splits : forall docs cur,
  len (concat cur) + len (concat splits) <= chunk_size ->
  Splitter.merge_loop chunk_size chunk_overlap [] splits docs cur (len (concat cur))
  = Ok (docs ++ option_list (Splitter._join_docs (cur ++ splits) [])).
Proof.
  induction splits as [|d splits IH]; intros docs cur H.
  - cbn [Splitter.merge_loop]. now rewrite app_nil_r.
  - cbn [Splitter.merge_loop concat] in *. rewrite len_app in H.
    pose proof (len_nonneg (concat splits)).
    replace (len (@nil ascii)) with 0 by reflexivity.
    replace (if 0 <? Z.of_nat (length cur) then 0 else 0) with 0 by now destruct (0 <? _).
    replace (len (concat cur) + len d + 0 >? chunk_size) with false
      by (symmetry; rewrite Z.gtb_ltb; apply Z.ltb_ge; lia).
    cbn [mbind result_bind].
    replace (len (concat cur) + len d + _) with (len (concat (cur ++ [d]))).
    2:{ rewrite concat_app, len_app. simpl. rewrite app_nil_r. destruct (1 <? _); lia. }
    rewrite IH.
    + now rewrite <- app_assoc.
    + rewrite concat_app, len_app. simpl. rewrite app_nil_r. lia.
Qed.

Lemma _split_text_short separators text :
  separators <> [] -> len text < chunk_size ->
  Splitter._split_text chunk_size chunk_overlap separators text
  = Ok (match strip text with [] => [] | _ :: _ => [strip text] end).
Proof.
  intros Hne Hlen.
  assert (Hloop : forall recurse sep,
    Splitter.split_loop chunk_size chunk_overlap recurse
      (Splitter._split_text_with_regex text sep) [] []
    = Ok (match strip text with [] => [] | _ :: _ => [strip text] end)).
  { intros recurse sep.
    pose proof (concat_split_text_with_regex text sep) as Hcat.
    set (splits := Splitter._split_text_with_regex text sep) in *.
    rewrite split_loop_all_short.
    2:{ apply Forall_forall. intros s Hs. apply elem_len_le in Hs. rewrite Hcat in Hs. lia. }
    cbn [app]. destruct splits as [|g splits'] eqn:E.
    - cbn in Hcat. subst text. reflexivity.
    - cbn [Splitter.flush]. unfold Splitter._merge_splits.
      change 0 with (len (concat (@nil str))).
      rewrite merge_loop_no_overflow by (rewrite Hcat; change (len (concat [])) with 0; lia).
      cbn [mbind result_bind app]. unfold Splitter._join_docs.
      rewrite join_nil, Hcat. now destruct (strip text). }
  induction separators as [|_s rest IH]; [done|].
  cbn [Splitter._split_text].
  destruct rest as [|s' rest'].
  - destruct _s as [|c _s]; [apply Hloop|].
    destruct (contains (c :: _s) text); apply Hloop.
  - destruct _s as [|c _s]; [apply Hloop|].
    destruct (contains (c :: _s) text); [apply Hloop|].
    now apply IH.
Qed.

End ShortText.

(** ** The number of windows *)

Lemma windows_count max_size overlap t :
  0 <= overlap -> overlap < max_size -> overlap < len t ->
  let n := len (windows max_size overlap t) in
  (n - 1) * (max_size - overlap) < len t - overlap <= n * (max_size - overlap).
Proof.
  intros Ho Hs. revert t.
  apply (windows_ind max_size overlap Ho Hs (fun t ws =>
    overlap < len t ->
    (len ws - 1) * (max_size - overlap) < len t - overlap
                                        <= len ws * (max_size - overlap))).
  - change (len (@nil ascii)) with 0. lia.
  - intros t _ Hle Hlt. change (len [t]) with 1. lia.
  - intros t Hlong t' IH _.
    assert (Ht' : len t' = len t - (max_size - overlap)) by (unfold t'; rewrite len_drop; lia).
    specialize (IH ltac:(lia)).
    replace (len (take (Z.to_nat max_size) t :: windows max_size overlap t'))
      with (1 + len (windows max_size overlap t')) by (unfold len; cbn [length]; lia).
    nia.
Qed.

(** ** A request that succeeds *)

Lemma download_loop_ok answers : forall tr tr',
  download_loop answers tr = (Ok tt, tr') ->
  exists n, done_after answers n /\ tr' = tr ++ repeat (ECall NextChunk None) (S n).
Proof.
  induction answers as [|r answers IH]; intros tr tr'; cbn [download_loop].
  - cbn [call]. intros H. injection H as <-. exists 0%nat.
    split; [split; [reflexivity|now right]|reflexivity].
  - rewrite bind_run. unfold call. destruct r as [[|]|e]; [| |discriminate].
    + unfold mret, M_ret. intros H. injection H as <-. exists 0%nat.
      split; [split; [reflexivity|now left]|reflexivity].
    + intros H. destruct (IH _ _ H) as (n & [Ht Hn] & ->). exists (S n).
      split; [split; [cbn [take repeat]; now rewrite Ht|exact Hn]|].
      now rewrite <- app_assoc.
Qed.

Lemma download_ok w file_id file_name tr file_path tr1 :
  download_file_from_drive w file_id file_name tr = (Ok file_path, tr1) ->
  file_path = os_path_join (gettempdir w) file_name
  /\ drive_build w = Ok tt
  /\ open_wb w file_path = Ok tt
  /\ exists n,
       done_after (next_chunk w file_id) n
       /\ tr1 = tr ++ [ECall BuildDrive None; ECall (GetMedia file_id) None;
                       ECall (OpenWrite file_path) None]
                ++ repeat (ECall NextChunk None) (S n)
                ++ [EPrint (LogDownloaded file_path)].
Proof.
  unfold download_file_from_drive, authenticate_drive.
  rewrite bind_run. unfold call at 1.
  destruct (drive_build w) as [[]|e]; [|discriminate].
  rewrite bind_run. unfold call at 1.
  rewrite bind_run. unfold call at 1.
  destruct (open_wb w _) as [[]|e] eqn:Ho; [|discriminate].
  rewrite bind_run.
  destruct (download_loop _ _) as [[[]|e] tr2] eqn:Hl; [|discriminate].
  apply download_loop_ok in Hl as (n & Hn & ->).
  rewrite bind_run, print_run. unfold mret, M_ret. intros H. injection H as <- <-.
  split; [reflexivity|]. split; [reflexivity|]. split; [exact Ho|].
  exists n. split; [exact Hn|].
  rewrite <- !app_assoc. reflexivity.
Qed.

Lemma fetch_ok w file_id tr file_name file_path tr1 :
  fetch w file_id tr = (Ok (file_name, file_path), tr1) ->
  exists md mime n,
    drive_build w = Ok tt
    /\ files_get w file_id = Ok md
    /\ md !! py "name" = Some file_name
    /\ md !! py "mimeType" = Some mime
    /\ file_path = os_path_join (gettempdir w) file_name
    /\ open_wb w file_path = Ok tt
    /\ done_after (next_chunk w file_id) n
    /\ tr1 = tr ++ [ECall BuildDrive None; ECall (FilesGet file_id) None;
                    EPrint (LogProcessing file_name mime);
                    ECall BuildDrive None; ECall (GetMedia file_id) None;
                    ECall (OpenWrite file_path) None]
             ++ repeat (ECall NextChunk None) (S n)
             ++ [EPrint (LogDownloaded file_path)].
Proof.
  unfold fetch, authenticate_drive.
  rewrite bind_run. unfold call at 1.
  destruct (drive_build w) as [[]|e] eqn:Hb; [|discriminate].
  rewrite bind_run. unfold call at 1.
  destruct (files_get w file_id) as [md|e]; [|discriminate].
  rewrite bind_run. unfold lift at 1, getitem at 1.
  destruct (md !! py "name") as [name|] eqn:Hname; [|discriminate].
  rewrite bind_run. unfold lift at 1, getitem at 1.
  destruct (md !! py "mimeType") as [mime|] eqn:Hmime; [|discriminate].
  rewrite bind_run, print_run.
  rewrite bind_run.
  destruct (download_file_from_drive w file_id name _) as [[p|e] tr2] eqn:Hd; [|discriminate].
  unfold mret, M_ret. intros H. injection H as <- <- <-.
  apply download_ok in Hd as (-> & _ & Ho & n & Hn & ->).
  exists md, mime, n.
  split; [reflexivity|]. split; [reflexivity|]. split; [exact Hname|].
  split; [exact Hmime|]. split; [reflexivity|]. split; [exact Ho|]. split; [exact Hn|].
  rewrite <- !app_assoc. reflexivity.
Qed.

Lemma pipeline_ok w file_id tr file_name chunks tr' :
  pipeline w file_id tr = (Ok (file_name, chunks), tr') ->
  let file_path := os_path_join (gettempdir w) file_name in
  exists md mime n loader docs,
    drive_build w = Ok tt
    /\ files_get w file_id = Ok md
    /\ md !! py "name" = Some file_name
    /\ md !! py "mimeType" = Some mime
    /\ open_wb w file_path = Ok tt
    /\ done_after (next_chunk w file_id) n
    /\ select_loader file_path = Ok loader
    /\ loader_load w loader = Ok docs
    /\ split_documents 4000 200 docs = Ok chunks
    /\ from_documents w chunks = Ok tt
    /\ tr' = tr ++ [ECall BuildDrive None; ECall (FilesGet file_id) None;
                    EPrint (LogProcessing file_name mime);
                    ECall BuildDrive None; ECall (GetMedia file_id) None;
                    ECall (OpenWrite file_path) None]
             ++ repeat (ECall NextChunk None) (S n)
             ++ [EPrint (LogDownloaded file_path);
                 ECall (Load loader) None;
                 EPrint (LogLoaded (len docs) file_path);
                 EPrint (LogCreated (len chunks));
                 ECall (FromDocuments chunks OLLAMA_MODEL QDRANT_URL COLLECTION_NAME) None;
                 EPrint (LogStored (len chunks) COLLECTION_NAME)].
Proof.
  intros Hrun file_path. rewrite pipeline_fetch, bind_run in Hrun.
  destruct (fetch w file_id tr) as [[[name p]|e] tr1] eqn:Hf; [|discriminate].
  apply fetch_ok in Hf as (md & mime & n & Hb & Hg & Hn & Hm & -> & Ho & Hd & ->).
  rewrite bind_run, load_document_run in Hrun.
  destruct (select_loader _) as [loader|e] eqn:Hsel; [|discriminate].
  destruct (loader_load w loader) as [docs|e] eqn:Hload; [|discriminate].
  rewrite bind_run, chunk_documents_run in Hrun.
  destruct (split_documents 4000 200 docs) as [chunks'|e] eqn:Hsplit; [|discriminate].
  rewrite bind_run, embed_and_store_run in Hrun.
  destruct (from_documents w chunks') as [[]|e] eqn:Hstore; [|discriminate].
  unfold mret, M_ret in Hrun. injection Hrun as <- <- <-.
  exists md, mime, n, loader, docs. repeat split; try assumption.
  - destruct Hd as [Hd _]. exact Hd.
  - destruct Hd as [_ Hd]. exact Hd.
  - cbn [app repeat]. repeat (rewrite <- app_assoc; cbn [app repeat]). reflexivity.
Qed.

Lemma success_response_inj name1 n1 name2 n2 :
  success_response name1 n1 = success_response name2 n2 -> name1 = name2 /\ n1 = n2.
Proof.
  intros H. split.
  - apply (f_equal (fun m => m !! py "file")) in H. vm_compute in H. congruence.
  - apply (f_equal (fun m => m !! py "chunks")) in H. vm_compute in H. congruence.
Qed.

Lemma error_not_success e name n : error_response e <> success_response name n.
Proof.
  intros H. apply (f_equal (fun m => m !! py "status")) in H. vm_compute in H. discriminate.
Qed.

(** ** Stages come in order *)

Lemma stages_app l k : stages (l ++ k) = stages l ++ stages k.
Proof. apply omap_app. Qed.

Lemma stages_constant s l :
  Forall (fun ev => stage_of ev = Some s) l -> Forall (fun r => r = stage_rank s) (stages l).
Proof.
  induction 1 as [|ev l H _ IH]; [constructor|].
  change (stages (ev :: l))
    with (match stage_rank <$> stage_of ev with
          | Some r => r :: stages l
          | None => stages l
          end).
  rewrite H. now constructor.
Qed.

Lemma constant_sorted r (l : list nat) :
  Forall (fun x => x = r) l -> StronglySorted le l.
Proof.
  induction 1 as [|x l -> H IH]; constructor; [exact IH|].
  eapply Forall_impl; [exact H|]. intros y Hy. cbn in Hy. lia.
Qed.

Lemma staged_sorted {A} (r : result A) new : staged r new -> StronglySorted le (stages new).
Proof.
  intros (nf & np & nc & ne & -> & Hf & Hp & Hc & He & _).
  apply stages_constant in Hf, Hp, Hc, He. cbn [stage_rank] in *.
  rewrite !stages_app.
  repeat (apply StronglySorted_app_2; [|eauto using constant_sorted..]);
    intros x y Hx Hy; rewrite ?elem_of_app in Hy;
    rewrite Forall_forall in Hf, Hp, Hc, He;
    repeat match goal with
    | H : _ \/ _ |- _ => destruct H
    | H : _ ∈ stages nf |- _ => apply Hf in H
    | H : _ ∈ stages np |- _ => apply Hp in H
    | H : _ ∈ stages nc |- _ => apply Hc in H
    | H : _ ∈ stages ne |- _ => apply He in H
    end; lia.
Qed.

(** ** The extension of a path *)

(** [rfind]: nothing found, or the index of the last occurrence. *)
Lemma rfind_from_spec c t : forall i found,
  ((c ∉ t) /\ rfind_from c t i found = found)
  \/ exists k : nat,
       rfind_from c t i found = i + Z.of_nat k
       /\ t !! k = Some c /\ c ∉ drop (S k) t.
Proof.
  induction t as [|a t IH]; intros i found; cbn [rfind_from].
  - left. split; [apply not_elem_of_nil|reflexivity].
  - destruct (IH (i + 1) (if bool_decide (a = c) then i else found))
      as [[Hnot ->]|(k & -> & Hk & Hafter)].
    + case_bool_decide as Hac.
      * right. exists 0%nat. subst a. split; [lia|]. split; [reflexivity|exact Hnot].
      * left. split; [|reflexivity]. rewrite not_elem_of_cons. auto.
    + right. exists (S k). split; [lia|]. split; [exact Hk|exact Hafter].
Qed.

Lemma rfind_spec c t :
  ((c ∉ t) /\ rfind c t = -1)
  \/ exists k : nat, rfind c t = Z.of_nat k /\ t !! k = Some c /\ c ∉ drop (S k) t.
Proof. exact (rfind_from_spec c t 0 (-1)). Qed.

(** The index of an occurrence that nothing follows. *)
Lemma rfind_last c pre rest : c ∉ rest -> rfind c (pre ++ c :: rest) = len pre.
Proof.
  intros Hrest.
  destruct (rfind_spec c (pre ++ c :: rest)) as [[Hnot _]|(k & -> & Hk & Hafter)].
  - destruct Hnot. rewrite elem_of_app. right. left.
  - unfold len. f_equal.
    destruct (Nat.lt_trichotomy k (length pre)) as [Hlt|[->|Hgt]]; [|reflexivity|].
    + destruct Hafter. rewrite drop_app_le by lia.
      rewrite elem_of_app. right. left.
    + destruct Hrest. rewrite lookup_app_r in Hk by lia.
      destruct (k - length pre)%nat as [|j] eqn:E; [lia|]. cbn in Hk.
      now apply list_elem_of_lookup_2 in Hk.
Qed.

Lemma splitext_join p : (splitext p).1 ++ (splitext p).2 = p.
Proof.
  unfold splitext. cbv zeta. destruct (_ && _); cbn [fst snd].
  - apply take_drop.
  - apply app_nil_r.
Qed.

Lemma splitext_shape p :
  (splitext p).2 = []
  \/ exists rest,
       (splitext p).2 = "."%char :: rest
       /\ ("."%char ∉ rest) /\ ("/"%char ∉ rest).
Proof.
  unfold splitext. cbv zeta.
  destruct (rfind "." p >? rfind "/" p) eqn:Hgt; cbn [andb]; [|now left].
  destruct (has_non_dot _); cbn [snd]; [|now left]. right.
  apply Z.gtb_lt in Hgt.
  destruct (rfind_spec "." p) as [[_ Ed]|(k & Ed & Hk & Hafter)].
  { destruct (rfind_spec "/" p) as [[_ Es]|(j & Es & _)]; lia. }
  rewrite Ed, Nat2Z.id. exists (drop (S k) p).
  split; [now apply drop_S|]. split; [exact Hafter|].
  destruct (rfind_spec "/" p) as [[Hnot _]|(j & Es & _ & Hslash)].
  - intros H. apply Hnot. rewrite <- (take_drop (S k) p), elem_of_app. now right.
  - intros H. apply Hslash.
    rewrite <- (take_drop (S k - S j) (drop (S j) p)), elem_of_app. right.
    rewrite drop_drop. replace (S j + (S k - S j))%nat with (S k) by lia. exact H.
Qed.

Lemma splitext_no_dot p : "."%char ∉ p -> splitext p = (p, []).
Proof.
  intros H. unfold splitext. cbv zeta.
  destruct (rfind_spec "." p) as [[_ ->]|(k & _ & Hk & _)].
  - destruct (rfind_spec "/" p) as [[_ ->]|(j & -> & _)]; [reflexivity|].
    replace (-1 >? Z.of_nat j) with false; [reflexivity|].
    symmetry. rewrite Z.gtb_ltb. apply Z.ltb_ge. lia.
  - destruct H. now apply list_elem_of_lookup_2 in Hk.
Qed.

Lemma has_non_dot_dots dots :
  Forall (fun c => c = "."%char) dots -> has_non_dot dots = false.
Proof.
  induction 1 as [|c dots -> _ IH]; [reflexivity|]. cbn. exact IH.
Qed.

Lemma splitext_hidden dir dots rest :
  Forall (fun c => c = "."%char) dots -> "."%char ∉ rest -> "/"%char ∉ rest ->
  let p := dir ++ "/"%char :: dots ++ "."%char :: rest in
  splitext p = (p, []).
Proof.
  intros Hdots Hd Hs p. unfold splitext. cbv zeta.
  assert (Edot : rfind "." p = len (dir ++ "/"%char :: dots)).
  { unfold p. replace (dir ++ "/"%char :: dots ++ "."%char :: rest)
      with ((dir ++ "/"%char :: dots) ++ "."%char :: rest) by now rewrite <- app_assoc.
    now apply rfind_last. }
  assert (Esep : rfind "/" p = len dir).
  { unfold p. apply rfind_last. rewrite elem_of_app, elem_of_cons.
    intros [H|[H|H]]; [|discriminate|contradiction].
    rewrite Forall_forall in Hdots. apply Hdots in H. discriminate. }
  rewrite Edot, Esep. unfold len.
  replace (take _ p) with (dir ++ "/"%char :: dots).
  2:{ unfold p. rewrite Nat2Z.id.
      replace (dir ++ "/"%char :: dots ++ "."%char :: rest)
        with ((dir ++ "/"%char :: dots) ++ "."%char :: rest) by now rewrite <- app_assoc.
      now rewrite take_app_length. }
  replace (drop _ (dir ++ "/"%char :: dots)) with dots.
  2:{ replace (Z.to_nat (Z.of_nat (length dir) + 1)) with (length (dir ++ ["/"%char]))
        by (rewrite length_app; cbn; lia).
      replace (dir ++ "/"%char :: dots) with ((dir ++ ["/"%char]) ++ dots)
        by now rewrite <- app_assoc.
      now rewrite drop_app_length. }
  rewrite (has_non_dot_dots dots Hdots), andb_false_r. reflexivity.
Qed.

(** ** A plain name stays in the temp directory *)

Lemma split_slash_plain name : forall cur,
  ("/"%char ∉ name) -> split_slash cur name = [reverse cur ++ name].
Proof.
  induction name as [|c name IH]; intros cur H; cbn [split_slash].
  - now rewrite app_nil_r.
  - apply not_elem_of_cons in H as [Hc H].
    rewrite bool_decide_eq_false_2 by congruence.
    rewrite IH by exact H. rewrite reverse_cons, <- app_assoc. reflexivity.
Qed.

(** The components of [t ++ u]: those of [t], the last one continued by
    [u]. *)
Lemma split_slash_app t : forall cur,
  exists l z,
    split_slash cur t = l ++ [z]
    /\ forall u, split_slash cur (t ++ u) = l ++ split_slash (reverse z) u.
Proof.
  induction t as [|c t IH]; intros cur; cbn [app split_slash].
  - exists [], (reverse cur). split; [reflexivity|]. intros u. now rewrite reverse_involutive.
  - case_bool_decide.
    + destruct (IH []) as (l & z & -> & Hu). exists (reverse cur :: l), z.
      split; [reflexivity|]. intros u. now rewrite Hu.
    + apply IH.
Qed.

Lemma resolve_snoc_plain l : forall stack c,
  c <> [] -> c <> py "." -> c <> py ".." ->
  resolve stack (l ++ [c]) = resolve stack l ++ [c].
Proof.
  induction l as [|d l IH]; intros stack c H1 H2 H3; cbn [app resolve].
  - rewrite !bool_decide_eq_false_2 by assumption. cbn [orb resolve].
    apply reverse_cons.
  - destruct (_ || _); [now apply IH|].
    destruct (bool_decide (d = py "..")); now apply IH.
Qed.

Lemma resolve_snoc_empty l : forall stack, resolve stack (l ++ [[]]) = resolve stack l.
Proof.
  induction l as [|d l IH]; intros stack; cbn [app resolve]; [reflexivity|].
  destruct (_ || _); [apply IH|].
  destruct (bool_decide (d = py "..")); apply IH.
Qed.

Lemma endswith_slash t : endswith (py "/") t = true -> exists t0, t = t0 ++ py "/".
Proof.
  unfold endswith. intros H. apply startswith_spec in H.
  change (reverse (py "/")) with ["/"%char] in H. cbn [length app] in H.
  exists (reverse (drop 1 (reverse t))).
  change (py "/") with ["/"%char].
  rewrite <- reverse_cons, <- H. now rewrite reverse_involutive.
Qed.

Lemma normal_components_join tmp name :
  ("/"%char ∉ name) -> name <> [] -> name <> py "." -> name <> py ".." ->
  normal_components (os_path_join tmp name) = normal_components tmp ++ [name].
Proof.
  intros Hslash H1 H2 H3. unfold os_path_join.
  assert (Hstart : startswith (py "/") name = false).
  { destruct name as [|c name]; [done|]. cbn.
    apply not_elem_of_cons in Hslash as [Hc _].
    rewrite bool_decide_eq_false_2 by congruence. reflexivity. }
  rewrite Hstart. unfold normal_components.
  destruct (bool_decide (tmp = [])) eqn:Hempty; cbn [orb].
  - apply bool_decide_eq_true in Hempty as ->. cbn [app].
    rewrite split_slash_plain by exact Hslash.
    exact (resolve_snoc_plain [] [] name H1 H2 H3).
  - destruct (endswith (py "/") tmp) eqn:Hend.
    + apply endswith_slash in Hend as (t0 & ->). cbn [py String.list_ascii_of_string].
      destruct (split_slash_app t0 []) as (l & z & _ & Hu).
      rewrite <- app_assoc, !Hu.
      cbn [app split_slash]. rewrite bool_decide_eq_true_2 by reflexivity.
      rewrite split_slash_plain by exact Hslash.
      cbn [reverse rev_append app]. rewrite reverse_involutive.
      replace (l ++ [z; []]) with ((l ++ [z]) ++ [[]]) by now rewrite <- app_assoc.
      replace (l ++ [z; name]) with ((l ++ [z]) ++ [name]) by now rewrite <- app_assoc.
      rewrite resolve_snoc_empty. now apply resolve_snoc_plain.
    + cbn [py String.list_ascii_of_string].
      destruct (split_slash_app tmp []) as (l & z & -> & Hu). rewrite Hu.
      cbn [app split_slash]. rewrite bool_decide_eq_true_2 by reflexivity.
      rewrite split_slash_plain by exact Hslash.
      cbn [reverse rev_append app]. rewrite reverse_involutive.
      replace (l ++ [z; name]) with ((l ++ [z]) ++ [name]) by now rewrite <- app_assoc.
      now apply resolve_snoc_plain.
Qed.

(** ** Further properties of the stages *)

(** X1: every chunk [chunk_documents] produces carries the metadata of
    one of the documents, unchanged, and its text is a run of
    consecutive characters of that document's text that is not empty and
    has no white space at either end. *)
Theorem chunks_are_trimmed_cuts docs tr :
  exists chunks,
    chunk_documents docs tr = (Ok chunks, tr ++ [EPrint (LogCreated (len chunks))])
    /\ Forall (fun c => exists d,
                 d ∈ docs /\ metadata c = metadata d
                 /\ trimmed (page_content c)
                 /\ substring (page_content c) (page_content d)) chunks.
Proof.
  destruct (split_documents_cuts docs) as (chunks & E & H).
  exists chunks. rewrite chunk_documents_run, E. split; [reflexivity|].
  eapply Forall_impl; [exact H|]. intros c (d & Hd & Hm & Ht & Hs). eauto 6.
Qed.

(** X2: documents whose texts are empty or all white space, and the
    empty list of documents, give no chunk at all; [chunk_documents]
    returns the empty list and prints the count 0. *)
Theorem blank_documents_give_no_chunks docs tr :
  Forall (fun d => all_space (page_content d)) docs ->
  chunk_documents docs tr = (Ok [], tr ++ [EPrint (LogCreated 0)]).
Proof.
  intros H. now rewrite chunk_documents_run, (split_documents_blank docs H).
Qed.

Lemma blank_documents_give_no_chunks_witness :
  let docs := [text_doc (py "/tmp/a.txt") (py "   "); text_doc (py "/tmp/a.txt") []] in
  Forall (fun d => all_space (page_content d)) docs
  /\ chunk_documents docs [] = (Ok [], [] ++ [EPrint (LogCreated 0)]).
Proof.
  intros docs.
  assert (H : Forall (fun d => all_space (page_content d)) docs)
    by (repeat constructor).
  split; [exact H|]. exact (blank_documents_give_no_chunks docs [] H).
Defined.

(** X3: a document of fewer than 4000 characters is not split: its one
    chunk is its text without the white space at both ends, with the
    document's metadata; if nothing is left, there is no chunk. *)
Theorem short_document_is_one_chunk doc tr :
  len (page_content doc) < 4000 ->
  let text := strip (page_content doc) in
  let chunks := match text with [] => [] | _ :: _ => [mkDocument text (metadata doc)] end in
  chunk_documents [doc] tr = (Ok chunks, tr ++ [EPrint (LogCreated (len chunks))]).
Proof.
  intros Hlen text chunks. rewrite chunk_documents_run. cbn [split_documents].
  unfold Splitter.split_text.
  rewrite (_split_text_short 4000 200 Splitter.separators (page_content doc)) by (done || lia).
  cbn [mbind result_bind]. fold text. unfold chunks.
  destruct text; reflexivity.
Qed.

Lemma short_document_is_one_chunk_witness :
  let doc := text_doc (py "/tmp/a.txt") (py "  hello world  ") in
  len (page_content doc) < 4000
  /\ chunk_documents [doc] []
     = (Ok [text_doc (py "/tmp/a.txt") (py "hello world")], [] ++ [EPrint (LogCreated 1)]).
Proof.
  intros doc. assert (H : len (page_content doc) < 4000) by (vm_compute; reflexivity).
  split; [exact H|]. exact (short_document_is_one_chunk doc [] H).
Defined.

(** X4: chunking a list of documents is chunking its parts: the chunks
    of [docs1 ++ docs2] are the chunks of [docs1] followed by the chunks
    of [docs2], so chunks come in document order. *)
Theorem chunk_documents_app docs1 docs2 tr :
  exists chunks1 chunks2,
    chunk_documents docs1 tr = (Ok chunks1, tr ++ [EPrint (LogCreated (len chunks1))])
    /\ chunk_documents docs2 tr = (Ok chunks2, tr ++ [EPrint (LogCreated (len chunks2))])
    /\ chunk_documents (docs1 ++ docs2) tr
       = (Ok (chunks1 ++ chunks2),
          tr ++ [EPrint (LogCreated (len chunks1 + len chunks2))]).
Proof.
  destruct (split_documents_fit docs1) as (chunks1 & E1 & _).
  destruct (split_documents_fit docs2) as (chunks2 & E2 & _).
  exists chunks1, chunks2. rewrite !chunk_documents_run, E1, E2.
  rewrite (split_documents_app _ _ _ _ _ _ E1 E2), len_app. auto.
Qed.

(** X5: for a document whose text has no white-space character and more
    than 200 characters, the number [n] of chunks is the least with
    [len text - 200 <= n * 3800]. *)
Theorem hard_cut_chunk_count doc tr :
  no_space (page_content doc) -> 200 < len (page_content doc) ->
  exists chunks,
    chunk_documents [doc] tr = (Ok chunks, tr ++ [EPrint (LogCreated (len chunks))])
    /\ (len chunks - 1) * 3800 < len (page_content doc) - 200 <= len chunks * 3800.
Proof.
  intros Hns Hlen. eexists. rewrite chunk_documents_run, (split_documents_no_space doc Hns).
  split; [reflexivity|].
  replace (len (map _ _)) with (len (windows 4000 200 (page_content doc)))
    by (unfold len; now rewrite length_map).
  apply (windows_count 4000 200 (page_content doc)); lia.
Qed.

Lemma hard_cut_chunk_count_witness :
  let doc := text_doc (py "/tmp/x.txt") nine_thousand_letters in
  (no_space (page_content doc) /\ 200 < len (page_content doc))
  /\ exists chunks,
       chunk_documents [doc] [] = (Ok chunks, [] ++ [EPrint (LogCreated (len chunks))])
       /\ (len chunks - 1) * 3800 < len (page_content doc) - 200 <= len chunks * 3800.
Proof.
  intros doc.
  assert (H1 : no_space (page_content doc)) by by_evaluation.
  assert (H2 : 200 < len (page_content doc)) by (vm_compute; reflexivity).
  split; [split; [exact H1|exact H2]|]. exact (hard_cut_chunk_count doc [] H1 H2).
Defined.

(** X6: the download loop calls [next_chunk] until the first answer that
    is [done] or an exception and not once more: answers after it are
    never asked for; when it is an exception the loop raises it. *)
Theorem download_loop_stops_at_first_done n rest tr :
  download_loop (repeat (Ok false) n ++ Ok true :: rest) tr
  = (Ok tt, tr ++ repeat (ECall NextChunk None) (S n))
  /\ (forall e,
        download_loop (repeat (Ok false) n ++ Raise e :: rest) tr
        = (Raise e, tr ++ repeat (ECall NextChunk None) n ++ [ECall NextChunk (Some e)])).
Proof.
  assert (Hsnoc : forall k, repeat (ECall NextChunk None) k ++ [ECall NextChunk None]
                            = repeat (ECall NextChunk None) (S k)).
  { intros k. now rewrite <- repeat_cons. }
  split.
  - rewrite download_loop_pending. cbn [download_loop]. rewrite bind_run. cbn [call].
    unfold mret, M_ret. now rewrite <- app_assoc, Hsnoc.
  - intros e. rewrite download_loop_pending. cbn [download_loop]. rewrite bind_run.
    cbn [call]. now rewrite <- app_assoc.
Qed.

(** X7: when the metadata the Drive service returns has no [name], or
    has a [name] and no [mimeType], the handler answers with the error
    body whose message is the missing key between single quotes; it has
    made the two calls for the metadata and no other, so nothing is
    downloaded. *)
Theorem missing_metadata_key w file_id md tr :
  drive_build w = Ok tt -> files_get w file_id = Ok md ->
  forall key,
    (key = py "name" /\ md !! py "name" = None)
    \/ (key = py "mimeType" /\ is_Some (md !! py "name") /\ md !! py "mimeType" = None) ->
    process_drive_file w file_id tr
    = (Ok {[ py "error" := JStr (py "'" ++ key ++ py "'") ]},
       tr ++ [ECall BuildDrive None; ECall (FilesGet file_id) None;
              EPrint (LogError (KeyError key))]).
Proof.
  intros Hb Hg key Hkey. rewrite process_run. unfold pipeline, authenticate_drive.
  rewrite bind_run. unfold call at 1. rewrite Hb.
  rewrite bind_run. unfold call at 1. rewrite Hg.
  rewrite bind_run. unfold lift at 1, getitem at 1.
  destruct Hkey as [(-> & Hn)|(-> & (name & Hn) & Hm)]; rewrite Hn.
  - rewrite <- !app_assoc. reflexivity.
  - rewrite bind_run. unfold lift at 1, getitem at 1. rewrite Hm.
    rewrite <- !app_assoc. reflexivity.
Qed.

Lemma missing_metadata_key_witness :
  let w := metadata_world {[ py "name" := py "a.txt" ]} in
  (drive_build w = Ok tt
   /\ files_get w (py "f1") = Ok {[ py "name" := py "a.txt" ]}
   /\ ((py "mimeType" = py "name" /\ ({[ py "name" := py "a.txt" ]} : gmap (list ascii) (list ascii)) !! py "name" = None)
       \/ (py "mimeType" = py "mimeType"
           /\ is_Some (({[ py "name" := py "a.txt" ]} : gmap (list ascii) (list ascii)) !! py "name")
           /\ ({[ py "name" := py "a.txt" ]} : gmap (list ascii) (list ascii)) !! py "mimeType" = None)))
  /\ process_drive_file w (py "f1") []
     = (Ok {[ py "error" := JStr (py "'" ++ py "mimeType" ++ py "'") ]},
        [] ++ [ECall BuildDrive None; ECall (FilesGet (py "f1")) None;
               EPrint (LogError (KeyError (py "mimeType")))]).
Proof.
  intros w.
  assert (H : (py "mimeType" = py "name" /\ ({[ py "name" := py "a.txt" ]} : gmap (list ascii) (list ascii)) !! py "name" = None)
       \/ (py "mimeType" = py "mimeType"
           /\ is_Some (({[ py "name" := py "a.txt" ]} : gmap (list ascii) (list ascii)) !! py "name")
           /\ ({[ py "name" := py "a.txt" ]} : gmap (list ascii) (list ascii)) !! py "mimeType" = None)).
  { right. split; [reflexivity|]. split; [exists (py "a.txt")|]; vm_compute; reflexivity. }
  split; [split; [reflexivity|split; [reflexivity|exact H]]|].
  exact (missing_metadata_key w (py "f1") _ [] eq_refl eq_refl (py "mimeType") H).
Defined.

(** X8: in one request the handler asks every collaborator at most once:
    one metadata request, one media request, one file opened for
    writing, one loader run, one call to the vector store; only the
    Drive client is built up to twice. *)
Theorem collaborators_called_at_most_once w file_id tr :
  exists resp new,
    process_drive_file w file_id tr = (resp, tr ++ new)
    /\ (calls is_build new <= 2)%nat
    /\ (calls is_files_get new <= 1)%nat
    /\ (calls is_get_media new <= 1)%nat
    /\ (calls is_open_write new <= 1)%nat
    /\ (calls is_load new <= 1)%nat
    /\ (calls is_from_documents new <= 1)%nat.
Proof.
  destruct (process_calls w file_id) as (H1 & H2 & H3 & H4 & H5 & H6).
  destruct (H1 tr) as (resp & new & E & C1). exists resp, new.
  split; [exact E|]. split; [exact C1|].
  repeat split;
    match goal with
    | |- (calls ?p _ <= _)%nat =>
        match goal with
        | H : at_most p _ _ |- _ =>
            destruct (H tr) as (resp' & new' & E' & C'); rewrite E in E';
            injection E' as _ E'; apply app_inv_head in E'; subst new'; exact C'
        end
    end.
Qed.

(** X9: the success body is returned only if every stage ran to its end:
    the metadata has the name in the body and a MIME type, the file was
    opened for writing at the join of the temp directory and that name
    and downloaded until [next_chunk] reported the end, a loader chosen
    by the extension read it, the chunks of what it read were accepted
    by the vector store, and the count in the body is the number of
    these chunks. The trace is then that of the whole pipeline, call by
    call. *)
Theorem success_means_all_stages_ran w file_id tr file_name n tr' :
  process_drive_file w file_id tr = (Ok (success_response file_name n), tr') ->
  let file_path := os_path_join (gettempdir w) file_name in
  exists md mime k loader docs chunks,
    drive_build w = Ok tt
    /\ files_get w file_id = Ok md
    /\ md !! py "name" = Some file_name
    /\ md !! py "mimeType" = Some mime
    /\ open_wb w file_path = Ok tt
    /\ done_after (next_chunk w file_id) k
    /\ select_loader file_path = Ok loader
    /\ loader_load w loader = Ok docs
    /\ split_documents 4000 200 docs = Ok chunks
    /\ from_documents w chunks = Ok tt
    /\ n = len chunks
    /\ tr' = tr ++ [ECall BuildDrive None; ECall (FilesGet file_id) None;
                    EPrint (LogProcessing file_name mime);
                    ECall BuildDrive None; ECall (GetMedia file_id) None;
                    ECall (OpenWrite file_path) None]
             ++ repeat (ECall NextChunk None) (S k)
             ++ [EPrint (LogDownloaded file_path);
                 ECall (Load loader) None;
                 EPrint (LogLoaded (len docs) file_path);
                 EPrint (LogCreated (len chunks));
                 ECall (FromDocuments chunks OLLAMA_MODEL QDRANT_URL COLLECTION_NAME) None;
                 EPrint (LogStored (len chunks) COLLECTION_NAME)].
Proof.
  intros Hrun file_path. rewrite process_run in Hrun.
  destruct (pipeline w file_id tr) as [[[name chunks]|e] tr1] eqn:Hp.
  - assert (Hresp : success_response name (len chunks) = success_response file_name n)
      by congruence.
    assert (Htr : tr1 = tr') by congruence. subst tr'.
    apply success_response_inj in Hresp as (-> & <-).
    destruct (pipeline_ok _ _ _ _ _ _ Hp) as (md & mime & k & loader & docs & H).
    exists md, mime, k, loader, docs, chunks. tauto.
  - assert (Hresp : error_response e = success_response file_name n) by congruence.
    now apply error_not_success in Hresp.
Qed.

Lemma success_means_all_stages_ran_witness :
  let w := sample_world (py "a.txt") [text_doc (py "/tmp/a.txt") (py "hello")] in
  exists tr',
    process_drive_file w (py "f1") [] = (Ok (success_response (py "a.txt") 1), tr')
    /\ exists md mime k loader docs chunks,
         drive_build w = Ok tt
         /\ files_get w (py "f1") = Ok md
         /\ md !! py "name" = Some (py "a.txt")
         /\ md !! py "mimeType" = Some mime
         /\ open_wb w (os_path_join (gettempdir w) (py "a.txt")) = Ok tt
         /\ done_after (next_chunk w (py "f1")) k
         /\ select_loader (os_path_join (gettempdir w) (py "a.txt")) = Ok loader
         /\ loader_load w loader = Ok docs
         /\ split_documents 4000 200 docs = Ok chunks
         /\ from_documents w chunks = Ok tt
         /\ 1 = len chunks
         /\ tr' = [] ++ [ECall BuildDrive None; ECall (FilesGet (py "f1")) None;
                         EPrint (LogProcessing (py "a.txt") mime);
                         ECall BuildDrive None; ECall (GetMedia (py "f1")) None;
                         ECall (OpenWrite (os_path_join (gettempdir w) (py "a.txt"))) None]
                  ++ repeat (ECall NextChunk None) (S k)
                  ++ [EPrint (LogDownloaded (os_path_join (gettempdir w) (py "a.txt")));
                      ECall (Load loader) None;
                      EPrint (LogLoaded (len docs) (os_path_join (gettempdir w) (py "a.txt")));
                      EPrint (LogCreated (len chunks));
                      ECall (FromDocuments chunks OLLAMA_MODEL QDRANT_URL COLLECTION_NAME) None;
                      EPrint (LogStored (len chunks) COLLECTION_NAME)].
Proof.
  intros w. eexists.
  assert (H : process_drive_file w (py "f1") []
              = (Ok (success_response (py "a.txt") 1),
                 (process_drive_file w (py "f1") []).2)) by (vm_compute; reflexivity).
  split; [exact H|].
  exact (success_means_all_stages_ran w (py "f1") [] (py "a.txt") 1 _ H).
Defined.

(** X10: a file in which the loader finds only white space, or no
    document at all, is not rejected: the vector store is called with
    the empty list of chunks, and the handler answers with what the
    store makes of it, a success body with the count 0 if it accepts the
    empty list and the error body of its exception if it raises. *)
Theorem blank_file_reaches_store w file_id tr file_name file_path tr1 loader docs :
  fetch w file_id tr = (Ok (file_name, file_path), tr1) ->
  select_loader file_path = Ok loader ->
  loader_load w loader = Ok docs ->
  Forall (fun d => all_space (page_content d)) docs ->
  let tr2 := tr1 ++ [ECall (Load loader) None; EPrint (LogLoaded (len docs) file_path);
                     EPrint (LogCreated 0)] in
  process_drive_file w file_id tr
  = match from_documents w [] with
    | Ok _ =>
        (Ok (success_response file_name 0),
         tr2 ++ [ECall (FromDocuments [] OLLAMA_MODEL QDRANT_URL COLLECTION_NAME) None;
                 EPrint (LogStored 0 COLLECTION_NAME)])
    | Raise e =>
        (Ok (error_response e),
         tr2 ++ [ECall (FromDocuments [] OLLAMA_MODEL QDRANT_URL COLLECTION_NAME) (Some e);
                 EPrint (LogError e)])
    end.
Proof.
  intros Hf Hsel Hload Hblank tr2. unfold tr2.
  rewrite process_run, (process_after_fetch _ _ _ _ _ _ Hf).
  rewrite bind_run, load_document_run, Hsel, Hload.
  rewrite bind_run, chunk_documents_run, (split_documents_blank docs Hblank).
  rewrite bind_run, embed_and_store_run.
  destruct (from_documents w []) as [[]|e]; cbn [len length Z.of_nat];
    unfold mret, M_ret; rewrite <- !app_assoc; reflexivity.
Qed.

Lemma blank_file_reaches_store_witness :
  let docs := [text_doc (py "/tmp/a.txt") (py " ")] in
  let w := sample_world (py "a.txt") docs in
  let tr1 := (fetch w (py "f1") []).2 in
  let loader := TextLoader (py "/tmp/a.txt") (py "utf-8") true in
  (fetch w (py "f1") [] = (Ok (py "a.txt", py "/tmp/a.txt"), tr1)
   /\ select_loader (py "/tmp/a.txt") = Ok loader
   /\ loader_load w loader = Ok docs
   /\ Forall (fun d => all_space (page_content d)) docs)
  /\ process_drive_file w (py "f1") []
     = (Ok (success_response (py "a.txt") 0),
        (tr1 ++ [ECall (Load loader) None; EPrint (LogLoaded (len docs) (py "/tmp/a.txt"));
                 EPrint (LogCreated 0)])
        ++ [ECall (FromDocuments [] OLLAMA_MODEL QDRANT_URL COLLECTION_NAME) None;
            EPrint (LogStored 0 COLLECTION_NAME)]).
Proof.
  intros docs w tr1 loader.
  assert (H1 : fetch w (py "f1") [] = (Ok (py "a.txt", py "/tmp/a.txt"), tr1))
    by (vm_compute; reflexivity).
  assert (H2 : select_loader (py "/tmp/a.txt") = Ok loader) by (vm_compute; reflexivity).
  assert (H3 : loader_load w loader = Ok docs) by reflexivity.
  assert (H4 : Forall (fun d => all_space (page_content d)) docs) by (repeat constructor).
  split; [auto|].
  exact (blank_file_reaches_store w (py "f1") [] _ _ tr1 loader docs H1 H2 H3 H4).
Defined.

(** X11: the events of a request come stage by stage: first those of the
    download, then those of the loader, then the chunk count, then those
    of the vector store; no event of an earlier stage follows one of a
    later stage, whatever the collaborators answer. *)
Theorem stages_in_order w file_id tr :
  exists resp new,
    process_drive_file w file_id tr = (resp, tr ++ new)
    /\ StronglySorted le (stages new).
Proof.
  rewrite process_run.
  destruct (pipeline_staged w file_id tr) as ([[name chunks]|e] & new & -> & H).
  - eexists _, new. split; [reflexivity|]. exact (staged_sorted _ _ H).
  - eexists _, (new ++ [EPrint (LogError e)]). split; [now rewrite app_assoc|].
    rewrite stages_app. change (stages [EPrint (LogError e)]) with (@nil nat).
    rewrite app_nil_r. exact (staged_sorted _ _ H).
Qed.

(** X12: [splitext] cuts a path in two without losing a character: root
    and extension put together are the path, and the extension is empty
    or a dot followed by characters that are neither dots nor slashes.
    So the extension [load_document] tests is read from the last
    component only. *)
Theorem splitext_splits_path p :
  (splitext p).1 ++ (splitext p).2 = p
  /\ ((splitext p).2 = []
      \/ exists rest,
           (splitext p).2 = "."%char :: rest
           /\ ("."%char ∉ rest) /\ ("/"%char ∉ rest)).
Proof. split; [apply splitext_join|apply splitext_shape]. Qed.

(** X13: a file without an extension is rejected, and so is a file whose
    name is dots followed by what looks like an extension, such as
    [.pdf] or [..txt]: its extension is empty, no loader is chosen, and
    [load_document] raises the unsupported-format error with nothing
    after the colon. *)
Theorem no_extension_rejected w p tr :
  ("."%char ∉ p)
  \/ (exists dir dots rest,
        p = dir ++ "/"%char :: dots ++ "."%char :: rest
        /\ Forall (fun c => c = "."%char) dots
        /\ ("."%char ∉ rest) /\ ("/"%char ∉ rest)) ->
  splitext p = (p, [])
  /\ load_document w p tr = (Raise (ValueError (py "Unsupported file format: ")), tr).
Proof.
  intros H.
  assert (E : splitext p = (p, [])).
  { destruct H as [H|(dir & dots & rest & -> & Hdots & Hd & Hs)].
    - now apply splitext_no_dot.
    - now apply splitext_hidden. }
  split; [exact E|].
  rewrite load_document_run. unfold select_loader. rewrite E. reflexivity.
Qed.

Lemma no_extension_rejected_witness :
  let w := sample_world (py ".pdf") [] in
  let p := py "/tmp/.pdf" in
  (("."%char ∉ p)
   \/ (exists dir dots rest,
         p = dir ++ "/"%char :: dots ++ "."%char :: rest
         /\ Forall (fun c => c = "."%char) dots
         /\ ("."%char ∉ rest) /\ ("/"%char ∉ rest)))
  /\ splitext p = (p, [])
  /\ load_document w p [] = (Raise (ValueError (py "Unsupported file format: ")), []).
Proof.
  intros w p.
  assert (H : ("."%char ∉ p)
   \/ (exists dir dots rest,
         p = dir ++ "/"%char :: dots ++ "."%char :: rest
         /\ Forall (fun c => c = "."%char) dots
         /\ ("."%char ∉ rest) /\ ("/"%char ∉ rest))).
  { right. exists (py "/tmp"), [], (py "pdf"). split; [reflexivity|].
    split; [constructor|]. split; by_evaluation. }
  split; [exact H|]. exact (no_extension_rejected w p [] H).
Defined.

(** X14: a file name that is a single ordinary path component (no slash,
    not empty, not [.] and not [..]) is written in the temp directory
    itself: the path [download_file_from_drive] opens is the temp
    directory's own components followed by that name. *)
Theorem plain_name_stays_in_temp_dir w file_name :
  ("/"%char ∉ file_name) -> file_name <> [] ->
  file_name <> py "." -> file_name <> py ".." ->
  let file_path := os_path_join (gettempdir w) file_name in
  normal_components file_path = normal_components (gettempdir w) ++ [file_name]
  /\ inside (gettempdir w) file_path.
Proof.
  intros Hs H1 H2 H3 file_path.
  assert (E := normal_components_join (gettempdir w) file_name Hs H1 H2 H3).
  split; [exact E|]. unfold inside. fold file_path in E |- *. rewrite E.
  now apply prefix_app_r.
Qed.

Lemma plain_name_stays_in_temp_dir_witness :
  let w := sample_world (py "notes.txt") [] in
  let file_name := py "notes.txt" in
  (("/"%char ∉ file_name) /\ file_name <> [] /\ file_name <> py "." /\ file_name <> py "..")
  /\ normal_components (os_path_join (gettempdir w) file_name)
     = normal_components (gettempdir w) ++ [file_name]
  /\ inside (gettempdir w) (os_path_join (gettempdir w) file_name).
Proof.
  intros w file_name.
  assert (H0 : "/"%char ∉ file_name) by by_evaluation.
  assert (H1 : file_name <> []) by discriminate.
  assert (H2 : file_name <> py ".") by discriminate.
  assert (H3 : file_name <> py "..") by discriminate.
  split; [auto|]. exact (plain_name_stays_in_temp_dir w file_name H0 H1 H2 H3).
Defined.
